(** * nbdime: notebook diffing

    A shallow embedding of [nbdime/diffing/notebooks.py] (the similarity
    predicates on cells, the cell diff builder [diff_cells] and the notebook
    differ [diff_notebooks]) and of [truncate_filename] from
    [nbdime/webapp/nbdimeserver.py], with the properties the design document
    states about them.

    Conventions of the embedding.
    - A notebook is JSON: [value] has the JSON shapes.  Python's [==] on such
      values is structural, and order-insensitive on dicts, which is Leibniz
      equality on [gmap].  Python identifies [True]/[False] with [1]/[0]
      under [==], so one numeric leaf [VNum] stands for both; floats are not
      modelled.
    - Python exceptions are the [Raise] outcomes of the [res] monad.
    - List indices, snake coordinates and lengths are naturals.
    - The caller's two notebook dicts live in a store, because
      [diff_notebooks] copies them and pops a key from the copies. *)

From stdpp Require Import gmap gmultiset strings list fin_maps sorting.
From Stdlib Require Import Ascii QArith.

Set Warnings "-register-all".
Local Open Scope nat_scope.

(** ** JSON values *)

Inductive value : Type :=
| VNone
| VNum (z : Z)
| VStr (s : string)
| VList (l : list value)
| VDict (d : gmap string value).

Global Instance value_eq_dec : EqDecision value.
Proof.
  refine (fix go (x y : value) {struct x} : Decision (x = y) :=
    let _ : EqDecision value := go in
    match x, y with
    | VNone, VNone => left _
    | VNum a, VNum b => cast_if (decide (a = b))
    | VStr a, VStr b => cast_if (decide (a = b))
    | VList a, VList b => cast_if (decide (a = b))
    | VDict a, VDict b => cast_if (decide (a = b))
    | _, _ => right _
    end); congruence.
Defined.

(** ** Exceptions and the result monad *)

Inductive exn : Type :=
| KeyError (k : string)
| TypeError
| IndexError
| AttributeError
| StructuralError.

Inductive res (A : Type) : Type :=
| Ok (a : A)
| Raise (e : exn).
Global Arguments Ok {A} a.
Global Arguments Raise {A} e.

Global Instance res_ret : MRet res := λ A a, Ok a.
Global Instance res_bind : MBind res := λ A B f m,
  match m with Ok a => f a | Raise e => Raise e end.

Definition is_ok {A} (m : res A) : Prop := ∃ a, m = Ok a.

(** [x[k]] for a string key [k]: only a dict can be subscripted by a string,
    and a missing key is a [KeyError]. *)
Definition getitem (x : value) (k : string) : res value :=
  match x with
  | VDict d => match d !! k with Some v => Ok v | None => Raise (KeyError k) end
  | _ => Raise TypeError
  end.

(** [a[i]] for a list and a natural index. *)
Definition index (a : list value) (i : nat) : res value :=
  match a !! i with Some v => Ok v | None => Raise IndexError end.

(** [b[lo:hi]] for naturals [lo], [hi]. *)
Definition slice (b : list value) (lo hi : nat) : list value :=
  take (hi - lo) (drop lo b).

(** [sep.join(xs)]: every item has to be a string. *)
Fixpoint str_items (xs : list value) : res (list string) :=
  match xs with
  | [] => Ok []
  | VStr s :: xs' => l ← str_items xs'; Ok (s :: l)
  | _ :: _ => Raise TypeError
  end.

Definition join (sep : string) (xs : list value) : res string :=
  l ← str_items xs; Ok (String.concat sep l).

Definition newline : string := String (Ascii.ascii_of_nat 10) EmptyString.

(** ** difflib.SequenceMatcher(None, a, b, autojunk=False)

    Python's standard library, which the repository calls but does not
    contain.  The model follows difflib's documentation: no junk, no
    autojunk, sequences of characters.  The float quotient
    [2.0 * matches / length] is kept as an exact rational; the comparisons
    against the literal [0.90] in the caller agree with the exact ones for
    any text that fits in memory (the quotient is correctly rounded, equal
    rationals round to the same double as the literal, and unequal ones
    differ by at least [1 / (10 * length)]). *)
Module difflib.

(** Length of the longest common prefix. *)
Fixpoint common_prefix (a b : list ascii) : nat :=
  match a, b with
  | x :: a', y :: b' => if decide (x = y) then S (common_prefix a' b') else 0
  | _, _ => 0
  end.

(** A candidate replaces the best block so far only when strictly longer,
    so the earliest start in [a], then in [b], wins among the longest. *)
Definition better (best cand : nat * nat * nat) : nat * nat * nat :=
  if best.2 <? cand.2 then cand else best.

Definition blocks_at (a b : list ascii) (i : nat) : list (nat * nat * nat) :=
  (λ j, (i, j, common_prefix (drop i a) (drop j b))) <$> seq 0 (length b).

(** [find_longest_match(0, len(a), 0, len(b))]: [(i, j, k)] with
    [a[i:i+k] == b[j:j+k]], [k] maximal, then [i] minimal, then [j]
    minimal; [(0, 0, 0)] when nothing matches. *)
Definition find_longest_match (a b : list ascii) : nat * nat * nat :=
  foldl better (0, 0, 0) (seq 0 (length a) ≫= blocks_at a b).

(** Total size of the blocks of [get_matching_blocks()]: the longest block,
    then recursively the pieces to its left and to its right. *)
Fixpoint matching_size (fuel : nat) (a b : list ascii) : nat :=
  match fuel with
  | 0 => 0
  | S fuel' =>
      let '(i, j, k) := find_longest_match a b in
      if k =? 0 then 0
      else matching_size fuel' (take i a) (take j b) + k
           + matching_size fuel' (drop (i + k) a) (drop (j + k) b)
  end.

Definition _calculate_ratio (matches length : nat) : Q :=
  match length with
  | 0 => 1
  | S _ => (2 * Z.of_nat matches) # (Pos.of_nat length)
  end.

Definition ratio (a b : list ascii) : Q :=
  _calculate_ratio (matching_size (S (length a)) a b) (length a + length b).

(** [quick_ratio]: [fullbcount] counts the elements of [b]; [avail] is
    filled lazily from it and decremented for every element of [a]. *)
Definition fullbcount (b : list ascii) : gmap ascii Z :=
  foldl (λ m elt, <[elt := (default 0 (m !! elt) + 1)%Z]> m) ∅ b.

Definition quick_step (full : gmap ascii Z)
    (st : gmap ascii Z * nat) (elt : ascii) : gmap ascii Z * nat :=
  let '(avail, matches) := st in
  let numb := match avail !! elt with
              | Some n => n
              | None => default 0%Z (full !! elt)
              end in
  (<[elt := (numb - 1)%Z]> avail,
   if (0 <? numb)%Z then matches + 1 else matches).

Definition quick_matches (a b : list ascii) : nat :=
  (foldl (quick_step (fullbcount b)) (∅, 0) a).2.

Definition quick_ratio (a b : list ascii) : Q :=
  _calculate_ratio (quick_matches a b) (length a + length b).

Definition real_quick_ratio (a b : list ascii) : Q :=
  _calculate_ratio (length a `min` length b) (length a + length b).

(** Notions for the proofs of the bounds: a text as a multiset. *)
Abbreviation mset l := (list_to_set_disj l : gmultiset ascii).

(** The block found is a common run of the two texts. *)
Definition common_run (a b : list ascii) (blk : nat * nat * nat) : Prop :=
  let '(i, j, k) := blk in
  take k (drop i a) = take k (drop j b)
  ∧ i + k ≤ length a ∧ j + k ≤ length b.

(** What is still available of [b]: [avail] where it is filled, the full
    count elsewhere; a negative entry means nothing is left. *)
Definition remaining (full avail : gmap ascii Z) (c : ascii) : Z :=
  match avail !! c with Some n => n | None => default 0%Z (full !! c) end.

End difflib.

Definition Qlt_bool (x y : Q) : bool := negb (Qle_bool y x).

(** The constructor [SequenceMatcher(None, xs, ys, autojunk=False)] as the
    predicate uses it: on two texts.  Python fails with [TypeError] when
    difflib takes the length of, or iterates over, [None] or a number; what
    it does on a mapping depends on difflib's internals and is not modelled
    (the model raises there too).  No statement below relies on the outcome
    for sources that are not text. *)
Definition SequenceMatcher (xs ys : value) : res (list ascii * list ascii) :=
  match xs, ys with
  | VStr a, VStr b => Ok (String.list_ascii_of_string a, String.list_ascii_of_string b)
  | _, _ => Raise TypeError
  end.

(** ** The similarity predicates (notebooks.py, lines 29-88) *)

(** [if isinstance(xs, list): xs = "\n".join(xs)] *)
Definition join_if_list (xs : value) : res value :=
  match xs with
  | VList l => s ← join newline l; Ok (VStr s)
  | _ => Ok xs
  end.

Definition threshold : Q := 9 # 10.

Definition compare_cell_source_approximate (x y : value) : res bool :=
  xt ← getitem x "cell_type";
  yt ← getitem y "cell_type";
  if bool_decide (xt ≠ yt) then Ok false else
  xs ← getitem x "source";
  ys ← getitem y "source";
  xs ← join_if_list xs;
  ys ← join_if_list ys;
  if bool_decide (xs = ys) then Ok true else
  s ← SequenceMatcher xs ys;
  if Qlt_bool (difflib.real_quick_ratio s.1 s.2) threshold then Ok false else
  if Qlt_bool (difflib.quick_ratio s.1 s.2) threshold then Ok false else
  Ok (Qlt_bool threshold (difflib.ratio s.1 s.2)).

Definition compare_cell_source_exact (x y : value) : res bool :=
  xt ← getitem x "cell_type";
  yt ← getitem y "cell_type";
  if bool_decide (xt ≠ yt) then Ok false else
  xs ← getitem x "source";
  ys ← getitem y "source";
  if bool_decide (xs ≠ ys) then Ok false else
  Ok true.

Definition compare_cell_source_and_outputs (x y : value) : res bool :=
  xt ← getitem x "cell_type";
  yt ← getitem y "cell_type";
  if bool_decide (xt ≠ yt) then Ok false else
  xs ← getitem x "source";
  ys ← getitem y "source";
  if bool_decide (xs ≠ ys) then Ok false else
  xt' ← getitem x "cell_type";
  if bool_decide (xt' = VStr "code") then
    xo ← getitem x "outputs";
    yo ← getitem y "outputs";
    if bool_decide (xo ≠ yo) then Ok false else Ok true
  else Ok true.

(** ** truncate_filename (nbdimeserver.py, lines 42-47) *)

Definition truncate_filename (name : string) : string :=
  let limit := 20 in
  if String.length name <? limit then name
  else String.substring 0 (limit - 3) name +:+ "...".

(** ** Edit scripts (nbdime.dformat)

    A diff entry is the Python list [[op, key, args]]; the key is a mapping
    key or a sequence index. *)

Inductive key : Type :=
| Idx (i : nat)
| Name (s : string).

Inductive entry : Type :=
| ADD (k : key) (v : value)
| REMOVE (k : key)
| REPLACE (k : key) (v : value)
| SEQINSERT (k : key) (vs : list value)
| SEQDELETE (k : key) (n : nat)
| PATCH (k : key) (d : list entry).

Abbreviation script := (list entry).

Definition entry_key (e : entry) : key :=
  match e with
  | ADD k _ | REMOVE k | REPLACE k _ | SEQINSERT k _ | SEQDELETE k _
  | PATCH k _ => k
  end.

(** Truth value of a list: [if cd:] *)
Definition nonempty {A} (l : list A) : bool :=
  match l with [] => false | _ :: _ => true end.

(** ** Snakes and rectangles *)

Abbreviation snake := (nat * nat * nat)%type.
Abbreviation rect := (nat * nat * nat * nat)%type.
Abbreviation predicate := (value → value → res bool).

(** ** The store

    The two notebooks are dict objects owned by the caller; a location is an
    index into the store.  Nested values are immutable trees: nothing in
    [notebooks.py] writes below the top level of a notebook. *)

Abbreviation loc := nat.
Abbreviation store := (list (gmap string value)).

Definition M (A : Type) : Type := store → res A * store.

Global Instance M_ret : MRet M := λ A a σ, (Ok a, σ).
Global Instance M_bind : MBind M := λ A B f m σ,
  match m σ with
  | (Ok a, σ') => f a σ'
  | (Raise e, σ') => (Raise e, σ')
  end.

Definition lift {A} (r : res A) : M A := λ σ, (r, σ).

(** [d.copy()]: a new dict object with the same items.  A location that
    holds no dict has no such method. *)
Definition dict_copy (l : loc) : M loc := λ σ,
  match σ !! l with
  | Some d => (Ok (length σ), σ ++ [d])
  | None => (Raise AttributeError, σ)
  end.

(** [d.pop(k)]: removes [k] from the object itself and returns its value. *)
Definition dict_pop (l : loc) (k : string) : M value := λ σ,
  match σ !! l with
  | Some d =>
      match d !! k with
      | Some v => (Ok v, <[l := delete k d]> σ)
      | None => (Raise (KeyError k), σ)
      end
  | None => (Raise AttributeError, σ)
  end.

(** Reading the dict at a location, to pass it to a function that only
    reads it. *)
Definition load (l : loc) : M value := λ σ,
  match σ !! l with
  | Some d => (Ok (VDict d), σ)
  | None => (Raise AttributeError, σ)
  end.

(** The cell lists are Python lists.  (For another kind of value Python
    goes on as far as [len] and subscripting allow; the model stops with
    [TypeError], and no statement below is about such a notebook.) *)
Definition as_list (v : value) : res (list value) :=
  match v with VList l => Ok l | _ => Raise TypeError end.

(** ** The cell diff builder and the notebook differ
      (notebooks.py, lines 91-155)

    [nbdime.diff] (the generic structural differ) and
    [compute_snakes_multilevel] belong to modules of the repository that
    are not part of the sources at hand; the engine takes them as
    parameters. *)
Section Engine.

Variable diff : value → value → res script.
Variable compute_snakes_multilevel :
  list value → list value → rect → list predicate → Z → res (list snake).

Definition diff_single_cells (a b : value) : res script := diff a b.

(** [for k in range(n): ...] with [di] the list being appended to. *)
Fixpoint for_k (a b : list value) (i j : nat) (ks : list nat)
    (di : script) : res script :=
  match ks with
  | [] => Ok di
  | k :: ks' =>
      x ← index a (i + k);
      y ← index b (j + k);
      cd ← diff_single_cells x y;
      for_k a b i j ks'
        (if nonempty cd then di ++ [PATCH (Idx (i + k)) cd] else di)
  end.

(** [for i, j, n in ...: ...] with the loop-carried [di], [i0], [j0]. *)
Fixpoint for_snakes (a b : list value) (sn : list snake)
    (di : script) (i0 j0 : nat) : res script :=
  match sn with
  | [] => Ok di
  | (i, j, n) :: sn' =>
      let di := if i0 <? i then di ++ [SEQDELETE (Idx i0) (i - i0)] else di in
      let di := if j0 <? j then di ++ [SEQINSERT (Idx i0) (slice b j0 j)] else di in
      di ← for_k a b i j (seq 0 n) di;
      for_snakes a b sn' di (i + n) (j + n)
  end.

(** Lines 113-126: the diff computed from the snakes. *)
Definition diff_from_snakes (a b : list value) (snakes : list snake)
    : res script :=
  let '(i0, j0, i1, j1) := (0, 0, length a, length b) in
  for_snakes a b (snakes ++ [(i1, j1, 0)]) [] i0 j0.

Definition predicates : list predicate :=
  [compare_cell_source_approximate;
   compare_cell_source_exact;
   compare_cell_source_and_outputs].

Definition diff_cells (a b : list value) : res script :=
  let level := (Z.of_nat (length predicates) - 1)%Z in
  let rect := (0, 0, length a, length b) in
  snakes ← compute_snakes_multilevel a b rect predicates level;
  diff_from_snakes a b snakes.

Definition diff_notebooks (nba nbb : loc) : M script :=
  nba ← dict_copy nba;
  nbb ← dict_copy nbb;
  acells ← dict_pop nba "cells";
  bcells ← dict_pop nbb "cells";
  da ← load nba;
  db ← load nbb;
  nbdiff ← lift (diff da db);
  cdiff ← lift (a ← as_list acells; b ← as_list bcells; diff_cells a b);
  mret (if nonempty cdiff then nbdiff ++ [PATCH (Name "cells") cdiff]
        else nbdiff).

(** *** The cell diff builder as the design document words it (4.4) *)

(** The entries for the gap before a snake at [(i, j)]. *)
Definition gap_entries (b : list value) (i0 j0 i j : nat) : script :=
  (if i0 <? i then [SEQDELETE (Idx i0) (i - i0)] else [])
  ++ (if j0 <? j then [SEQINSERT (Idx i0) (slice b j0 j)] else []).

(** The entry of one matched pair: a [PATCH] when the cells differ. *)
Definition pair_entries (i : nat) (x y : value) : res script :=
  cd ← diff x y;
  Ok (match cd with [] => [] | _ :: _ => [PATCH (Idx i) cd] end).

Fixpoint snake_entries (a b : list value) (i j : nat) (ks : list nat)
    : res script :=
  match ks with
  | [] => Ok []
  | k :: ks' =>
      x ← index a (i + k);
      y ← index b (j + k);
      e ← pair_entries (i + k) x y;
      es ← snake_entries a b i j ks';
      Ok (e ++ es)
  end.

Fixpoint walk_snakes (a b : list value) (i0 j0 : nat) (sn : list snake)
    : res script :=
  match sn with
  | [] => Ok []
  | (i, j, n) :: sn' =>
      ps ← snake_entries a b i j (seq 0 n);
      rest ← walk_snakes a b (i + n) (j + n) sn';
      Ok (gap_entries b i0 j0 i j ++ ps ++ rest)
  end.

Definition cell_diff_builder (a b : list value) (snakes : list snake)
    : res script :=
  walk_snakes a b 0 0 (snakes ++ [(length a, length b, 0)]).

End Engine.

(** ** Well-formed cells and documents (design document, section 3) *)

(** A source is a text or a list of lines. *)
Definition is_text (v : value) : bool :=
  match v with VStr _ => true | _ => false end.

Definition text_source (v : value) : bool :=
  match v with
  | VStr _ => true
  | VList l => forallb is_text l
  | _ => false
  end.

(** A cell is a mapping with a [cell_type], a [source] and, for a code
    cell, [outputs]. *)
Definition well_formed_cell (c : value) : bool :=
  match c with
  | VDict d =>
      match d !! "cell_type", d !! "source" with
      | Some t, Some s =>
          text_source s
          && (if decide (t = VStr "code") then bool_decide (is_Some (d !! "outputs"))
              else true)
      | _, _ => false
      end
  | _ => false
  end.

(** A document is a mapping whose key ["cells"] holds a list of cells. *)
Definition well_formed_document (d : gmap string value) : bool :=
  match d !! "cells" with
  | Some (VList cs) => forallb well_formed_cell cs
  | _ => false
  end.

(** ** Contracts of the two absent modules *)

(** Modelled from the spec: the Generic Structural Differ
    ([nbdime.diffing.generic.diff], not among the sources).  Section 4.2:
    it "returns an empty Edit Script iff the two values are deeply equal". *)
Definition generic_differ (diff : value → value → res script) : Prop :=
  ∀ a b, diff a b = Ok [] ↔ a = b.

(** Snakes are within the rectangle [[0, i1) x [0, j1)]. *)
Definition snake_in_rect (i1 j1 : nat) (s : snake) : Prop :=
  s.1.1 + s.2 ≤ i1 ∧ s.1.2 + s.2 ≤ j1.

(** Consecutive snakes: strictly increasing in both coordinates and
    disjoint in both sequences. *)
Definition snake_before (s t : snake) : Prop :=
  s.1.1 < t.1.1 ∧ s.1.2 < t.1.2 ∧ s.1.1 + s.2 ≤ t.1.1 ∧ s.1.2 + s.2 ≤ t.1.2.

(** Section 3: a snake list is monotonic and non-overlapping. *)
Definition monotonic_snakes (a b : list value) (sn : list snake) : Prop :=
  Forall (snake_in_rect (length a) (length b)) sn ∧ Sorted snake_before sn.

(** Number of matched pairs of a snake list. *)
Definition matched (sn : list snake) : nat := sum_list (snd <$> sn).

(** A chain under predicate [P]: index pairs strictly increasing in both
    coordinates, each pair of elements accepted by [P]. *)
Definition pair_before (p q : nat * nat) : Prop := p.1 < q.1 ∧ p.2 < q.2.

Definition accepted (P : predicate) (a b : list value) (p : nat * nat) : Prop :=
  ∃ x y, a !! p.1 = Some x ∧ b !! p.2 = Some y ∧ P x y = Ok true.

Definition chain (P : predicate) (a b : list value) (c : list (nat * nat))
    : Prop :=
  Sorted pair_before c ∧ Forall (accepted P a b) c.

(** Modelled from the spec: the Multilevel Snake Computer
    ([nbdime.diffing.snakes.compute_snakes_multilevel], not among the
    sources), section 4.3, on the full rectangle as [diff_cells] calls it:
    - it fails only when a predicate does;
    - "the returned list is monotonic and non-overlapping";
    - it contains a "maximum-length chain of index pairs" for
      [predicates[level]], so no chain under that predicate is longer than
      the number of pairs it matches. *)
Record snake_computer
    (cs : list value → list value → rect → list predicate → Z → res (list snake))
    : Prop := {
  snakes_total : ∀ a b (ps : list predicate) level,
    (∀ P x y, P ∈ ps → x ∈ a → y ∈ b → is_ok (P x y)) →
    (0 ≤ level < Z.of_nat (length ps))%Z →
    is_ok (cs a b (0, 0, length a, length b) ps level);
  snakes_monotonic : ∀ a b ps level sn,
    cs a b (0, 0, length a, length b) ps level = Ok sn →
    monotonic_snakes a b sn;
  snakes_maximal : ∀ a b (ps : list predicate) level sn P c,
    cs a b (0, 0, length a, length b) ps level = Ok sn →
    ps !! Z.to_nat level = Some P → (0 ≤ level)%Z →
    chain P a b c →
    length c ≤ matched sn
}.

(** Keys of a script over one sequence, in order. *)
Definition index_key (e : entry) : option nat :=
  match entry_key e with Idx i => Some i | Name _ => None end.

(** The loop invariant of the walk over the snakes: every snake starts at or
    after the corner [(i0, j0)] left by the one before it. *)
Fixpoint in_order (i0 j0 : nat) (sn : list snake) : Prop :=
  match sn with
  | [] => True
  | (i, j, n) :: sn' => i0 ≤ i ∧ j0 ≤ j ∧ in_order (i + n) (j + n) sn'
  end.

(** No gap at all: every snake starts exactly at the corner left by the one
    before it. *)
Fixpoint gapless (i0 j0 : nat) (sn : list snake) : Prop :=
  match sn with
  | [] => True
  | (i, j, n) :: sn' => i = i0 ∧ j = j0 ∧ gapless (i + n) (j + n) sn'
  end.

(** A script over one sequence whose keys are the indices [ks]. *)
Definition keyed (es : script) (ks : list nat) : Prop :=
  index_key <$> es = Some <$> ks.

(** ** Instances of the two contracts

    A differ and a snake computer that meet the contracts above.  They make
    the engine executable, so that the statements below can be run on
    concrete notebooks. *)
Module reference.

(** The entry for key [k], from the values of the two mappings at [k]. *)
Definition key_entry (k : string) (va vb : option value) : option entry :=
  match va, vb with
  | Some x, Some y => if decide (x = y) then None else Some (REPLACE (Name k) y)
  | Some _, None => Some (REMOVE (Name k))
  | None, Some y => Some (ADD (Name k) y)
  | None, None => None
  end.

(** Delete what follows the common prefix, insert what replaces it. *)
Fixpoint list_entries (i : nat) (a b : list value) : script :=
  match a, b with
  | x :: a', y :: b' =>
      if decide (x = y) then list_entries (S i) a' b'
      else [SEQDELETE (Idx i) (length a); SEQINSERT (Idx i) b]
  | [], [] => []
  | _ :: _, [] => [SEQDELETE (Idx i) (length a)]
  | [], _ :: _ => [SEQINSERT (Idx i) b]
  end.

(** A one-level structural differ: key by key on mappings, by ranges on
    sequences; two different texts are a one-element sequence each, and
    other pairs of different shapes cannot be diffed. *)
Definition diff (a b : value) : res script :=
  match a, b with
  | VDict da, VDict db =>
      Ok (omap (λ k, key_entry k (da !! k) (db !! k))
               (elements (dom da ∪ dom db)))
  | VList la, VList lb => Ok (list_entries 0 la lb)
  | VStr _, VStr _ => Ok (list_entries 0 [a] [b])
  | _, _ => if decide (a = b) then Ok [] else Raise StructuralError
  end.

(** A longest chain of pairs accepted by [P], by the textbook recursion
    on the two lists; [i] and [j] are the indices of their heads. *)
Fixpoint longest_chain (P : predicate) (a : list value) (i : nat)
    (b : list value) (j : nat) {struct a} : res (list (nat * nat)) :=
  match a with
  | [] => Ok []
  | x :: a' =>
      (fix scan (b : list value) (j : nat) {struct b} :=
         match b with
         | [] => Ok []
         | y :: b' =>
             m ← P x y;
             if m : bool then
               c ← longest_chain P a' (S i) b' (S j); Ok ((i, j) :: c)
             else
               c1 ← longest_chain P a' (S i) (y :: b') j;
               c2 ← scan b' (S j);
               Ok (if length c1 <? length c2 then c2 else c1)
         end) b j
  end.

(** The chain of one level, with the result of [rec] spliced into every
    rectangle the chain leaves uncovered. *)
Fixpoint fill (rec : list value → nat → list value → nat → res (list (nat * nat)))
    (a : list value) (i0 : nat) (b : list value) (j0 : nat)
    (c : list (nat * nat)) : res (list (nat * nat)) :=
  match c with
  | [] => rec a i0 b j0
  | (i, j) :: c' =>
      g ← rec (take (i - i0) a) i0 (take (j - j0) b) j0;
      r ← fill rec (drop (S (i - i0)) a) (S i) (drop (S (j - j0)) b) (S j) c';
      Ok (g ++ (i, j) :: r)
  end.

(** The predicates strictest first. *)
Fixpoint multilevel (ps : list predicate) (a : list value) (i0 : nat)
    (b : list value) (j0 : nat) : res (list (nat * nat)) :=
  match ps with
  | [] => Ok []
  | P :: ps' =>
      c ← longest_chain P a i0 b j0;
      fill (multilevel ps') a i0 b j0 c
  end.

(** Consecutive pairs become one snake. *)
Fixpoint merge_pairs (c : list (nat * nat)) : list snake :=
  match c with
  | [] => []
  | (i, j) :: c' =>
      match merge_pairs c' with
      | (i', j', n) :: sn =>
          if (i' =? S i) && (j' =? S j) then (i, j, S n) :: sn
          else (i, j, 1) :: (i', j', n) :: sn
      | [] => [(i, j, 1)]
      end
  end.

Definition compute_snakes_multilevel (a b : list value) (r : rect)
    (ps : list predicate) (level : Z) : res (list snake) :=
  let '(i0, j0, i1, j1) := r in
  if (level <? 0)%Z then Ok []
  else if (Z.of_nat (length ps) <=? level)%Z then Raise IndexError
  else
    c ← multilevel (reverse (take (S (Z.to_nat level)) ps))
          (slice a i0 i1) i0 (slice b j0 j1) j0;
    Ok (merge_pairs c).

(** Pairs ascending in both coordinates from [(i0, j0)], below
    [(i1, j1)]. *)
Fixpoint ascending_pairs (i0 j0 i1 j1 : nat) (c : list (nat * nat)) : Prop :=
  match c with
  | [] => True
  | (i, j) :: c' =>
      i0 ≤ i < i1 ∧ j0 ≤ j < j1 ∧ ascending_pairs (S i) (S j) i1 j1 c'
  end.

Fixpoint ascending_snakes (i0 j0 i1 j1 : nat) (sn : list snake) : Prop :=
  match sn with
  | [] => True
  | (i, j, n) :: sn' =>
      i0 ≤ i ∧ j0 ≤ j ∧ 1 ≤ n ∧ i + n ≤ i1 ∧ j + n ≤ j1
      ∧ ascending_snakes (i + n) (j + n) i1 j1 sn'
  end.

Definition shift (di dj : nat) (p : nat * nat) : nat * nat :=
  (p.1 - di, p.2 - dj).

Definition ascending_result
    (rec : list value → nat → list value → nat → res (list (nat * nat))) : Prop :=
  ∀ a i0 b j0 c, rec a i0 b j0 = Ok c →
    ascending_pairs i0 j0 (i0 + length a) (j0 + length b) c.

End reference.

(** A cell or a notebook from its items. *)
Definition dict (items : list (string * value)) : value :=
  VDict (list_to_map items).

(** ** Two notebooks to run the statements on *)

Definition code_cell (source : string) (outputs : list value) : value :=
  dict [("cell_type", VStr "code"); ("source", VStr source);
        ("outputs", VList outputs)].

Definition markdown_cell (source : list string) : value :=
  dict [("cell_type", VStr "markdown"); ("source", VList (VStr <$> source))].

Definition notebook (cells : list value) : gmap string value :=
  list_to_map [("cells", VList cells); ("nbformat", VNum 4);
               ("metadata", dict [])].

Definition nb_before : gmap string value :=
  notebook [code_cell "import numpy as np" [];
            markdown_cell ["# Results"];
            code_cell "print(x)" [VNum 1]].

Definition nb_after : gmap string value :=
  notebook [markdown_cell ["# Results"];
            code_cell "import numpy  as np" [];
            markdown_cell ["# Results"];
            code_cell "print(x)" [VNum 2]].

(** ** Measures of a cell script *)

(** Elements of the source sequence a [SEQDELETE] removes. *)
Definition deleted (e : entry) : nat :=
  match e with SEQDELETE _ n => n | _ => 0 end.

(** Elements of the target sequence a [SEQINSERT] brings. *)
Definition inserted (e : entry) : nat :=
  match e with SEQINSERT _ vs => length vs | _ => 0 end.

(** Indices of the source sequence an entry deletes or patches. *)
Definition touched (e : entry) : list nat :=
  match e with
  | SEQDELETE (Idx k) n => seq k n
  | PATCH (Idx k) _ => [k]
  | _ => []
  end.

(** ** The web server (nbdimeserver.py, lines 50-185)

    The handlers are modelled as far as their own control flow goes.
    What they call outside the repository (json, os.path, requests,
    nbformat, io, tornado) is a parameter; a call that raises inside such a
    library is [None], which the handler sees as a [LibraryError]. *)

Inductive failure : Type :=
| HTTPError (status_code : nat) (log_message : string)
| Exception (e : exn)
| LibraryError (origin : string).

Inductive outcome (A : Type) : Type :=
| Done (a : A)
| Failed (f : failure).
Global Arguments Done {A} a.
Global Arguments Failed {A} f.

Global Instance outcome_ret : MRet outcome := λ A a, Done a.
Global Instance outcome_bind : MBind outcome := λ A B f m,
  match m with Done a => f a | Failed e => Failed e end.

(** An exception of the code of this repository, as it leaves a handler. *)
Definition of_res {A} (r : res A) : outcome A :=
  match r with Ok a => Done a | Raise e => Failed (Exception e) end.

(** A call into a library. *)
Definition external {A} (origin : string) (r : option A) : outcome A :=
  match r with Some a => Done a | None => Failed (LibraryError origin) end.

Record library (response : Type) : Type := {
  (** [json.loads(escape.to_unicode(body))] *)
  json_loads : string → option value;
  (** [os.path.join] and [os.path.exists] on texts *)
  os_path_join : string → string → string;
  os_path_exists : string → bool;
  (** [requests.get(url)] *)
  requests_get : string → option response;
  (** [nbformat.read(path_or_response, as_version=4)] *)
  nbformat_read : string + response → option (gmap string value);
  (** [nbformat.from_dict] *)
  nbformat_from_dict : value → option value;
  (** whether [io.open(path, "w", encoding="utf8")] succeeds, and the text
      [nbformat.write] produces *)
  io_open : string → bool;
  nbformat_writes : value → option string
}.
Global Arguments json_loads {response} _ _.
Global Arguments os_path_join {response} _ _ _.
Global Arguments os_path_exists {response} _ _.
Global Arguments requests_get {response} _ _.
Global Arguments nbformat_read {response} _ _.
Global Arguments nbformat_from_dict {response} _ _.
Global Arguments io_open {response} _ _.
Global Arguments nbformat_writes {response} _ _.

(** [os.path.join(a, b)]: both have to be texts. *)
Definition path_join {response} (lib : library response) (a b : value)
    : outcome string :=
  match a, b with
  | VStr a, VStr b => Done (os_path_join lib a b)
  | _, _ => Failed (LibraryError "os.path.join")
  end.

(** Truth value of a JSON value: [if not fn:] *)
Definition truthy (v : value) : bool :=
  match v with
  | VNone => false
  | VNum z => negb (z =? 0)%Z
  | VStr s => negb (String.eqb s "")
  | VList l => nonempty l
  | VDict d => negb (bool_decide (d = ∅))
  end.

(** What [ApiDiffHandler.post] hands to [self.finish]. *)
Record diff_data : Type := {
  data_base : gmap string value;
  data_diff : script
}.

(** The files of the machine and what was printed. *)
Record world : Type := {
  files : gmap string string;
  stdout : list value
}.

Section Server.

Context {response : Type} (lib : library response).
Variable diff : value → value → res script.
Variable compute_snakes_multilevel :
  list value → list value → rect → list predicate → Z → res (list snake).

(** [NbdimeApiHandler.get_notebook_argument] (lines 54-77); [params] is
    [self.params] and [body] is [self.request.body]. *)
Definition get_notebook_argument (params : gmap string value) (body : string)
    (argname : string) : outcome (gmap string value) :=
  body ← external "json.loads" (json_loads lib body);
  arg ← of_res (getitem body argname);
  match arg with
  | VStr name =>
      cwd ← of_res (getitem (VDict params) "cwd");
      path ← path_join lib cwd arg;
      path ← (if os_path_exists lib path then Done (inl path)
              else r ← external "requests.get" (requests_get lib name);
                   Done (inr r));
      match nbformat_read lib path with
      | Some nb => Done nb
      | None =>
          Failed (HTTPError 400 ("Invalid notebook: " +:+ truncate_filename name))
      end
  | _ => Failed (HTTPError 400 "Expecting a filename.")
  end.

(** [ApiDiffHandler.post] (lines 129-142).  The two notebooks read are two
    new objects; the data sent back holds the first of them as it is after
    the diff. *)
Definition ApiDiffHandler_post (params : gmap string value) (body : string)
    : outcome diff_data :=
  base_nb ← get_notebook_argument params body "base";
  remote_nb ← get_notebook_argument params body "remote";
  match diff_notebooks diff compute_snakes_multilevel 0 1 [base_nb; remote_nb] with
  | (Ok thediff, σ) =>
      (* [base_nb] is the object at location 0, which is still there *)
      base_nb ← external "store" (σ !! 0);
      Done {| data_base := base_nb; data_diff := thediff |}
  | (Raise _, _) => Failed (HTTPError 400 "Error while diffing documents.")
  end.

(** [ApiMergeStoreHandler.post] (lines 165-185).  [io.open(path, "w")]
    empties the file before [nbformat.write] produces its text. *)
Definition ApiMergeStoreHandler_post (params : gmap string value)
    (body : string) (w : world) : outcome () * world :=
  let fn := default VNone (params !! "outputfilename") in
  if negb (truthy fn) then
    (Failed (HTTPError 400 "Server does not accept storing merge result."), w)
  else
    match cwd ← of_res (getitem (VDict params) "cwd"); path_join lib cwd fn with
    | Failed f => (Failed f, w)
    | Done path =>
        match body ← external "json.loads" (json_loads lib body);
              of_res (getitem body "merged") with
        | Failed f => (Failed f, w)
        | Done merged =>
            let w := {| files := files w; stdout := stdout w ++ [merged] |} in
            match nbformat_from_dict lib merged with
            | None => (Failed (LibraryError "nbformat.from_dict"), w)
            | Some merged_nb =>
                if io_open lib path then
                  match nbformat_writes lib merged_nb with
                  | Some text =>
                      (Done (), {| files := <[path := text]> (files w);
                                   stdout := stdout w |})
                  | None =>
                      (Failed (LibraryError "nbformat.write"),
                       {| files := <[path := ""]> (files w);
                          stdout := stdout w |})
                  end
                else (Failed (LibraryError "io.open"), w)
            end
        end
    end.

End Server.

(** A library over a machine with one notebook file and one file that is
    no notebook, for the examples. *)
Definition demo_library : library () := {|
  json_loads := λ s,
    if String.eqb s "diff" then
      Some (dict [("base", VStr "before.ipynb"); ("remote", VStr "before.ipynb")])
    else if String.eqb s "store" then
      Some (dict [("merged", dict [("cells", VList [])])])
    else if String.eqb s "broken" then
      Some (dict [("base", VStr "a-broken-notebook-with-a-long-name.ipynb")])
    else None;
  os_path_join := λ a b, a +:+ "/" +:+ b;
  os_path_exists := λ p,
    String.eqb p "/work/before.ipynb"
    || String.eqb p "/work/a-broken-notebook-with-a-long-name.ipynb";
  requests_get := λ _, None;
  nbformat_read := λ src,
    match src with
    | inl "/work/before.ipynb" => Some nb_before
    | _ => None
    end;
  nbformat_from_dict := λ v, Some v;
  io_open := λ _, true;
  nbformat_writes := λ _, Some "{}"
|}.

(** * Properties *)

(** ** truncate_filename *)

Lemma length_append (s t : string) :
  String.length (s +:+ t) = String.length s + String.length t.
Proof. induction s as [|c s IH]; simpl; [done | by rewrite IH]. Qed.

Lemma length_substring_0 (n : nat) (s : string) :
  String.length (String.substring 0 n s) = n `min` String.length s.
Proof.
  revert s; induction n as [|n IH]; intros [|c s]; simpl; try done.
  by rewrite IH.
Qed.

(** C10. The result is at most 20 characters long; a name of fewer than 20
    characters is returned as it is; any other name, one of exactly 20
    characters included, becomes its first 17 characters followed by three
    dots, which is 20 characters. *)
Theorem truncate_filename_spec (name : string) :
  String.length (truncate_filename name) ≤ 20
  ∧ (String.length name < 20 → truncate_filename name = name)
  ∧ (20 ≤ String.length name →
      truncate_filename name = String.substring 0 17 name +:+ "..."
      ∧ String.length (truncate_filename name) = 20).
Proof.
  unfold truncate_filename.
  destruct (Nat.ltb_spec (String.length name) 20) as [Hlt|Hge].
  - split; [lia|]. split; [done | lia].
  - assert (String.length (String.substring 0 (20 - 3) name +:+ "...") = 20) as Hlen.
    { rewrite length_append, length_substring_0. change (String.length "...") with 3. lia. }
    split; [lia|]. split; [lia | done].
Qed.

Lemma truncate_filename_spec_witness :
  String.length "notebook-of-20-chars" = 20
  ∧ truncate_filename "notebook-of-20-chars" = "notebook-of-20-ch..."
  ∧ truncate_filename "short.ipynb" = "short.ipynb".
Proof.
  split; [reflexivity|].
  destruct (truncate_filename_spec "notebook-of-20-chars") as (_ & _ & H20).
  destruct (truncate_filename_spec "short.ipynb") as (_ & Hshort & _).
  split.
  - destruct H20 as [-> _]; [vm_compute; lia | reflexivity].
  - apply Hshort. vm_compute; lia.
Defined.

(** ** The similarity predicates *)

Lemma getitem_ok x k v :
  getitem x k = Ok v ↔ ∃ d, x = VDict d ∧ d !! k = Some v.
Proof.
  destruct x; simpl; try (split; [done | by intros (? & ? & ?)]).
  destruct (d !! k) eqn:E.
  - split; [intros [= <-]; eauto | intros (? & [= <-] & ?); congruence].
  - split; [done | intros (? & [= <-] & ?); congruence].
Qed.

(** C6. On two cells that have both fields, the predicate is the
    conjunction of the equality of the cell types and the equality of the
    sources as stored; a list of lines does not match a text, even the text
    its lines join to. *)
Theorem compare_cell_source_exact_spec (x y xt yt xs ys : value) :
  getitem x "cell_type" = Ok xt → getitem y "cell_type" = Ok yt →
  getitem x "source" = Ok xs → getitem y "source" = Ok ys →
  (compare_cell_source_exact x y = Ok true ↔ xt = yt ∧ xs = ys)
  ∧ (compare_cell_source_exact x y = Ok false ↔ ¬ (xt = yt ∧ xs = ys))
  ∧ (∀ lines text, xs = VList lines → ys = VStr text →
       compare_cell_source_exact x y = Ok false).
Proof.
  intros Hxt Hyt Hxs Hys. unfold compare_cell_source_exact.
  rewrite Hxt, Hyt; simpl. case_bool_decide as Ht.
  - split; [|split]; [split; [done | tauto] | split; [tauto | done] | done].
  - rewrite Hxs, Hys; simpl. case_bool_decide as Hs.
    + split; [|split]; [split; [done | tauto] | split; [tauto | done] | done].
    + split; [|split]; [split; [tauto | done] | split; [done | tauto] |].
      intros lines text -> ->. done.
Qed.

Lemma compare_cell_source_exact_spec_witness :
  let x := dict [("cell_type", VStr "code"); ("source", VList [VStr "a"; VStr "b"])] in
  let y := dict [("cell_type", VStr "code"); ("source", VStr ("a" +:+ newline +:+ "b"))] in
  join_if_list (VList [VStr "a"; VStr "b"]) = join_if_list (VStr ("a" +:+ newline +:+ "b"))
  ∧ compare_cell_source_exact x y = Ok false
  ∧ compare_cell_source_exact x x = Ok true.
Proof.
  intros x y. split; [reflexivity|]. split.
  - eapply (compare_cell_source_exact_spec x y); try reflexivity.
  - eapply (compare_cell_source_exact_spec x x); try reflexivity. done.
Defined.

(** C9. For a cell [x] whose type is not ["code"], the strictest predicate
    is the exact-source predicate, whatever the [outputs] fields are. *)
Theorem compare_cell_source_and_outputs_non_code (x y : value) :
  getitem x "cell_type" ≠ Ok (VStr "code") →
  compare_cell_source_and_outputs x y = compare_cell_source_exact x y.
Proof.
  intros Hcode. unfold compare_cell_source_and_outputs, compare_cell_source_exact.
  destruct (getitem x "cell_type") as [xt|] eqn:Hxt; simpl; [|done].
  destruct (getitem y "cell_type") as [yt|]; simpl; [|done].
  case_bool_decide; [done|].
  destruct (getitem x "source") as [xs|]; simpl; [|done].
  destruct (getitem y "source") as [ys|]; simpl; [|done].
  case_bool_decide; [done|].
  case_bool_decide; [congruence | done].
Qed.

Lemma compare_cell_source_and_outputs_non_code_witness :
  let x := dict [("cell_type", VStr "markdown"); ("source", VStr "# title");
                 ("outputs", VList [VNum 1])] in
  let y := dict [("cell_type", VStr "markdown"); ("source", VStr "# title")] in
  compare_cell_source_and_outputs x y = Ok true.
Proof.
  intros x y.
  rewrite (compare_cell_source_and_outputs_non_code x y); [reflexivity|].
  vm_compute. discriminate.
Defined.
Module difflib_facts.
Import difflib.

Lemma common_prefix_take (a b : list ascii) :
  take (common_prefix a b) a = take (common_prefix a b) b.
Proof.
  revert b; induction a as [|x a IH]; intros [|y b]; simpl; try done.
  case_decide; simpl; [subst; by rewrite IH | done].
Qed.

Lemma common_prefix_length (a b : list ascii) :
  common_prefix a b ≤ length a ∧ common_prefix a b ≤ length b.
Proof.
  revert b; induction a as [|x a IH]; intros [|y b]; simpl; try lia.
  case_decide; [specialize (IH b) |]; lia.
Qed.

Lemma foldl_better_inv (P : nat * nat * nat → Prop) best cands :
  P best → Forall P cands → P (foldl better best cands).
Proof.
  intros Hbest Hall; revert best Hbest.
  induction Hall as [|c cands Hc _ IH]; intros best Hbest; simpl; [done|].
  apply IH. unfold better. by case_match.
Qed.

Lemma find_longest_match_run (a b : list ascii) :
  common_run a b (find_longest_match a b).
Proof.
  unfold find_longest_match. apply foldl_better_inv.
  - simpl. rewrite !take_0. split; [done | lia].
  - apply list.Forall_forall. intros [[i j] k] Hin.
    apply list_elem_of_bind in Hin as (i' & Hin & Hi').
    apply list_elem_of_fmap in Hin as (j' & [= -> -> ->] & Hj').
    apply elem_of_seq in Hi', Hj'. simpl.
    pose proof (common_prefix_length (drop i' a) (drop j' b)) as [Ha Hb].
    rewrite !length_drop in Ha, Hb.
    split; [apply common_prefix_take | lia].
Qed.

Lemma split_at_run (a : list ascii) (i k : nat) :
  a = take i a ++ take k (drop i a) ++ drop (i + k) a.
Proof. by rewrite <-drop_drop, !take_drop. Qed.

Lemma size_mset (l : list ascii) : size (mset l) = length l.
Proof.
  induction l as [|x l IH]; simpl; [done|].
  rewrite gmultiset_size_disj_union, gmultiset_size_singleton. lia.
Qed.

(** The matching blocks pair up equal characters, each at most once. *)
Lemma matching_size_le_intersection (fuel : nat) (a b : list ascii) :
  matching_size fuel a b ≤ size (mset a ∩ mset b).
Proof.
  revert a b; induction fuel as [|fuel IH]; intros a b; simpl; [lia|].
  pose proof (find_longest_match_run a b) as Hrun.
  destruct (find_longest_match a b) as [[i j] k]. simpl in Hrun.
  destruct Hrun as (Hmid & Hi & Hj).
  destruct (Nat.eqb_spec k 0) as [|Hk]; [lia|].
  pose proof (IH (take i a) (take j b)) as IH1.
  pose proof (IH (drop (i + k) a) (drop (j + k) b)) as IH2.
  rewrite (split_at_run a i k) at 3. rewrite (split_at_run b j k) at 3.
  rewrite <-Hmid, !list_to_set_disj_app.
  set (M := mset (take k (drop i a))).
  assert (size M = k) as HM.
  { unfold M. rewrite size_mset, length_take, length_drop. lia. }
  etrans; [|apply gmultiset_subseteq_size
    with (X := (mset (take i a) ∩ mset (take j b)) ⊎ M
               ⊎ (mset (drop (i + k) a) ∩ mset (drop (j + k) b)))].
  - rewrite !gmultiset_size_disj_union. lia.
  - multiset_solver.
Qed.

Lemma intersection_le_min (a b : list ascii) :
  size (mset a ∩ mset b) ≤ length a `min` length b.
Proof.
  apply Nat.min_glb; rewrite <-size_mset; apply gmultiset_subseteq_size;
    multiset_solver.
Qed.

Lemma fullbcount_foldl (b : list ascii) (m : gmap ascii Z) (c : ascii) :
  default 0%Z
    (foldl (λ m elt, <[elt := (default 0 (m !! elt) + 1)%Z]> m) m b !! c)
  = (default 0 (m !! c) + Z.of_nat (multiplicity c (mset b)))%Z.
Proof.
  revert m; induction b as [|x b IH]; intros m; simpl.
  - rewrite multiplicity_empty. lia.
  - rewrite IH, multiplicity_disj_union, multiplicity_singleton.
    destruct (decide (c = x)) as [->|Hne].
    + rewrite lookup_insert_eq. simpl. lia.
    + rewrite lookup_insert_ne by done. lia.
Qed.

Lemma fullbcount_lookup (b : list ascii) (c : ascii) :
  default 0%Z (fullbcount b !! c) = Z.of_nat (multiplicity c (mset b)).
Proof. unfold fullbcount. rewrite fullbcount_foldl, lookup_empty. simpl. lia. Qed.

Lemma quick_loop (full : gmap ascii Z) (a : list ascii)
    (avail : gmap ascii Z) (m : nat) (R : gmultiset ascii) :
  (∀ c, Z.of_nat (multiplicity c R) = (0 `max` remaining full avail c)%Z) →
  (foldl (quick_step full) (avail, m) a).2 = m + size (mset a ∩ R).
Proof.
  revert avail m R; induction a as [|x a IH]; intros avail m R HR; simpl.
  - assert ((∅ : gmultiset ascii) ∩ R = ∅) as -> by multiset_solver.
    rewrite gmultiset_size_empty. lia.
  - pose proof (HR x) as Hx.
    change (match avail !! x with Some n => n | None => default 0%Z (full !! x) end)
      with (remaining full avail x).
    destruct (Z.ltb_spec 0 (remaining full avail x)) as [Hpos|Hneg].
    + rewrite (IH (<[x:=(remaining full avail x - 1)%Z]> avail) (m + 1) (R ∖ {[+ x +]})).
      * assert (1 ≤ multiplicity x R) as Hin by lia.
        assert (({[+ x +]} ⊎ mset a) ∩ R = {[+ x +]} ⊎ (mset a ∩ (R ∖ {[+ x +]}))) as ->.
        { apply gmultiset_eq. intros c.
          rewrite multiplicity_intersection, !multiplicity_disj_union,
            multiplicity_intersection, multiplicity_difference, multiplicity_singleton.
          case_decide; [subst c|]; lia. }
        rewrite gmultiset_size_disj_union, gmultiset_size_singleton. lia.
      * intros c. rewrite multiplicity_difference, multiplicity_singleton.
        unfold remaining at 1.
        destruct (decide (c = x)) as [->|Hne].
        -- rewrite lookup_insert_eq. lia.
        -- rewrite lookup_insert_ne by done. rewrite Nat.sub_0_r. apply HR.
    + rewrite (IH (<[x:=(remaining full avail x - 1)%Z]> avail) m R).
      * assert (multiplicity x R = 0) as Hout by lia.
        assert (({[+ x +]} ⊎ mset a) ∩ R = mset a ∩ R) as ->.
        { apply gmultiset_eq. intros c.
          rewrite !multiplicity_intersection, multiplicity_disj_union,
            multiplicity_singleton.
          case_decide; [subst c|]; lia. }
        done.
      * intros c. unfold remaining at 1.
        destruct (decide (c = x)) as [->|Hne].
        -- rewrite lookup_insert_eq. lia.
        -- rewrite lookup_insert_ne by done. apply HR.
Qed.

(** [quick_ratio] counts the multiset intersection of the two texts. *)
Lemma quick_matches_intersection (a b : list ascii) :
  quick_matches a b = size (mset a ∩ mset b).
Proof.
  unfold quick_matches. rewrite (quick_loop _ _ _ _ (mset b)); [done|].
  intros c. unfold remaining. rewrite lookup_empty, fullbcount_lookup. lia.
Qed.

Lemma calculate_ratio_mono (m m' len : nat) :
  m ≤ m' → (_calculate_ratio m len <= _calculate_ratio m' len)%Q.
Proof.
  intros Hm. destruct len as [|len]; simpl; [apply Qle_refl|].
  unfold Qle; simpl. nia.
Qed.

(** The two estimates are upper bounds of the ratio. *)
Lemma ratio_le_quick_ratio (a b : list ascii) :
  (ratio a b <= quick_ratio a b)%Q.
Proof.
  apply calculate_ratio_mono. rewrite quick_matches_intersection.
  apply matching_size_le_intersection.
Qed.

Lemma quick_ratio_le_real_quick_ratio (a b : list ascii) :
  (quick_ratio a b <= real_quick_ratio a b)%Q.
Proof.
  apply calculate_ratio_mono. rewrite quick_matches_intersection.
  apply intersection_le_min.
Qed.
(** The fuel of [ratio] is enough: more of it does not change the size of
    the matching blocks. *)
Lemma matching_size_fuel (f f' : nat) (a b : list ascii) :
  length a < f → length a < f' →
  matching_size f a b = matching_size f' a b.
Proof.
  revert f' a b; induction f as [|f IH]; intros [|f'] a b Hf Hf'; try lia.
  simpl. pose proof (find_longest_match_run a b) as Hrun.
  destruct (find_longest_match a b) as [[i j] k]. simpl in Hrun.
  destruct Hrun as (_ & Hi & _).
  destruct (Nat.eqb_spec k 0) as [|Hk]; [done|].
  rewrite (IH f' (take i a)), (IH f' (drop (i + k) a)); [done|..];
    rewrite ?length_take, ?length_drop; lia.
Qed.

End difflib_facts.

Import difflib_facts.

Lemma Qlt_bool_iff (x y : Q) : Qlt_bool x y = true ↔ (x < y)%Q.
Proof.
  unfold Qlt_bool. rewrite negb_true_iff, <-not_true_iff_false, Qle_bool_iff.
  split; [apply Qnot_le_lt | apply Qlt_not_le].
Qed.

(** A text source is normalised to a text. *)
Lemma str_items_text (l : list value) :
  forallb is_text l = true → is_ok (str_items l).
Proof.
  induction l as [|[] l IH]; simpl; try done; [by eexists|].
  intros Hl. destruct (IH Hl) as [ss ->]. by eexists.
Qed.

Lemma join_if_list_text (v : value) :
  text_source v = true → ∃ s, join_if_list v = Ok (VStr s).
Proof.
  destruct v; simpl; try done; [by eexists|].
  intros Hl. unfold join. destruct (str_items_text _ Hl) as [ss ->]. by eexists.
Qed.

Lemma join_if_list_eq (v w : value) :
  join_if_list v = Ok w → text_source v = true → ∃ s, w = VStr s.
Proof.
  intros Hj Ht. destruct (join_if_list_text v Ht) as [s Hs]. exists s. congruence.
Qed.

(** The approximate predicate on two cells of the same type whose
    normalised sources are the texts [a] and [b]. *)
Lemma compare_cell_source_approximate_texts (x y t xs ys : value) (a b : string) :
  getitem x "cell_type" = Ok t → getitem y "cell_type" = Ok t →
  getitem x "source" = Ok xs → getitem y "source" = Ok ys →
  join_if_list xs = Ok (VStr a) → join_if_list ys = Ok (VStr b) →
  compare_cell_source_approximate x y =
    if bool_decide (a = b) then Ok true else
    let s := (String.list_ascii_of_string a, String.list_ascii_of_string b) in
    if Qlt_bool (difflib.real_quick_ratio s.1 s.2) threshold then Ok false else
    if Qlt_bool (difflib.quick_ratio s.1 s.2) threshold then Ok false else
    Ok (Qlt_bool threshold (difflib.ratio s.1 s.2)).
Proof.
  intros Hxt Hyt Hxs Hys Ha Hb. unfold compare_cell_source_approximate.
  rewrite Hxt, Hyt; simpl. rewrite bool_decide_eq_false_2 by (intros H; by apply H).
  rewrite Hxs, Hys; simpl. rewrite Ha, Hb; simpl.
  repeat case_bool_decide; try done; congruence.
Qed.

(** C5. For two cells of the same type whose normalised sources are the
    texts [a] and [b]: equal texts are accepted; for different texts the
    predicate is true exactly when the similarity ratio exceeds 0.90, and
    either estimate below 0.90 rejects the pair. *)
Theorem compare_cell_source_approximate_spec
    (x y t xs ys : value) (a b : string) :
  getitem x "cell_type" = Ok t → getitem y "cell_type" = Ok t →
  getitem x "source" = Ok xs → getitem y "source" = Ok ys →
  join_if_list xs = Ok (VStr a) → join_if_list ys = Ok (VStr b) →
  let la := String.list_ascii_of_string a in
  let lb := String.list_ascii_of_string b in
  (a = b → compare_cell_source_approximate x y = Ok true)
  ∧ (a ≠ b →
      (compare_cell_source_approximate x y = Ok true
         ↔ (threshold < difflib.ratio la lb)%Q)
      ∧ (compare_cell_source_approximate x y = Ok false
         ↔ (difflib.ratio la lb <= threshold)%Q)
      ∧ ((difflib.real_quick_ratio la lb < threshold)%Q →
          compare_cell_source_approximate x y = Ok false)
      ∧ ((difflib.quick_ratio la lb < threshold)%Q →
          compare_cell_source_approximate x y = Ok false)).
Proof.
  intros Hxt Hyt Hxs Hys Ha Hb la lb.
  rewrite (compare_cell_source_approximate_texts x y t xs ys a b) by done.
  cbv zeta. simpl fst; simpl snd. fold la lb.
  split; [intros ->; by rewrite bool_decide_eq_true_2|].
  intros Hne. rewrite bool_decide_eq_false_2 by done.
  pose proof (ratio_le_quick_ratio la lb) as Hq.
  pose proof (quick_ratio_le_real_quick_ratio la lb) as Hr.
  destruct (Qlt_bool (difflib.real_quick_ratio la lb) threshold) eqn:E1.
  { apply Qlt_bool_iff in E1.
    assert (difflib.ratio la lb < threshold)%Q as Hlt
      by (eapply Qle_lt_trans; [|exact E1]; by eapply Qle_trans).
    split; [split; [done | intros H; exfalso; eapply Qlt_irrefl, Qlt_trans; eauto]|].
    split; [split; [intros _; by apply Qlt_le_weak | done]|]. done. }
  destruct (Qlt_bool (difflib.quick_ratio la lb) threshold) eqn:E2.
  { apply Qlt_bool_iff in E2.
    assert (difflib.ratio la lb < threshold)%Q as Hlt
      by (eapply Qle_lt_trans; [exact Hq | exact E2]).
    split; [split; [done | intros H; exfalso; eapply Qlt_irrefl, Qlt_trans; eauto]|].
    split; [split; [intros _; by apply Qlt_le_weak | done]|]. done. }
  apply not_true_iff_false in E1, E2. rewrite Qlt_bool_iff in E1, E2.
  destruct (Qlt_bool threshold (difflib.ratio la lb)) eqn:E3.
  - apply Qlt_bool_iff in E3.
    split; [done|]. split; [|done].
    split; [done | intros H; exfalso; eapply Qlt_irrefl, Qlt_le_trans; eauto].
  - apply not_true_iff_false in E3. rewrite Qlt_bool_iff in E3.
    split; [split; [done | intros H; by destruct E3]|].
    split; [|done]. split; [intros _; by apply Qnot_lt_le | done].
Qed.

Lemma compare_cell_source_approximate_spec_witness :
  let x := dict [("cell_type", VStr "code");
                 ("source", VList [VStr "import numpy as np"; VStr "x = 1"])] in
  let y := dict [("cell_type", VStr "code");
                 ("source", VStr ("import numpy as np" +:+ newline +:+ "x=1"))] in
  let z := dict [("cell_type", VStr "code"); ("source", VStr "print(x)")] in
  compare_cell_source_approximate x y = Ok true
  ∧ compare_cell_source_approximate x z = Ok false.
Proof.
  intros x y z.
  pose proof (compare_cell_source_approximate_spec x y (VStr "code") _ _ _ _
                eq_refl eq_refl eq_refl eq_refl eq_refl eq_refl) as [_ Hxy].
  pose proof (compare_cell_source_approximate_spec x z (VStr "code") _ _ _ _
                eq_refl eq_refl eq_refl eq_refl eq_refl eq_refl) as [_ Hxz].
  split.
  - destruct Hxy as (Htrue & _); [by vm_compute|].
    apply Htrue. by vm_compute.
  - destruct Hxz as (_ & Hfalse & _); [by vm_compute|].
    apply Hfalse. by vm_compute.
Defined.

Lemma compare_cell_source_exact_true (x y : value) :
  compare_cell_source_exact x y = Ok true →
  ∃ t s, getitem x "cell_type" = Ok t ∧ getitem y "cell_type" = Ok t
         ∧ getitem x "source" = Ok s ∧ getitem y "source" = Ok s.
Proof.
  unfold compare_cell_source_exact.
  destruct (getitem x "cell_type") as [xt|]; simpl; [|done].
  destruct (getitem y "cell_type") as [yt|]; simpl; [|done].
  case_bool_decide as Ht; [done|].
  destruct (getitem x "source") as [xs|]; simpl; [|done].
  destruct (getitem y "source") as [ys|]; simpl; [|done].
  case_bool_decide as Hs; [done|]. intros _.
  subst. by exists yt, ys.
Qed.

Lemma compare_cell_source_and_outputs_exact (x y : value) :
  compare_cell_source_and_outputs x y = Ok true →
  compare_cell_source_exact x y = Ok true.
Proof.
  unfold compare_cell_source_and_outputs, compare_cell_source_exact.
  destruct (getitem x "cell_type") as [xt|]; simpl; [|done].
  destruct (getitem y "cell_type") as [yt|]; simpl; [|done].
  case_bool_decide; [done|].
  destruct (getitem x "source") as [xs|]; simpl; [|done].
  destruct (getitem y "source") as [ys|]; simpl; [|done].
  by case_bool_decide.
Qed.

Lemma well_formed_cell_fields (c : value) :
  well_formed_cell c = true →
  ∃ t s, getitem c "cell_type" = Ok t ∧ getitem c "source" = Ok s
         ∧ text_source s = true
         ∧ (t = VStr "code" → is_ok (getitem c "outputs")).
Proof.
  destruct c as [| | | |d]; simpl; try done.
  destruct (d !! "cell_type") as [t|]; [|done].
  destruct (d !! "source") as [s|]; [|done].
  intros [Hs Ho]%andb_true_iff. exists t, s. repeat split; try done.
  intros ->. rewrite decide_True in Ho by done.
  apply bool_decide_eq_true in Ho as [o ->]. by eexists.
Qed.

(** C3. On well-formed cells the predicates are ordered by strictness:
    source-and-outputs implies exact source, which implies approximate
    source. *)
Theorem predicate_monotonicity (x y : value) :
  well_formed_cell x = true → well_formed_cell y = true →
  (compare_cell_source_and_outputs x y = Ok true →
     compare_cell_source_exact x y = Ok true)
  ∧ (compare_cell_source_exact x y = Ok true →
     compare_cell_source_approximate x y = Ok true).
Proof.
  intros Hx Hy. split; [apply compare_cell_source_and_outputs_exact|].
  intros (t & s & Hxt & Hyt & Hxs & Hys)%compare_cell_source_exact_true.
  apply well_formed_cell_fields in Hx as (t' & s' & Hxt' & Hxs' & Htext & _).
  assert (s' = s) as -> by congruence.
  destruct (join_if_list_text s Htext) as [a Ha].
  rewrite (compare_cell_source_approximate_texts x y t s s a a) by done.
  by rewrite bool_decide_eq_true_2.
Qed.

Lemma predicate_monotonicity_witness :
  let x := dict [("cell_type", VStr "code"); ("source", VList [VStr "x = 1"]);
                 ("outputs", VList [])] in
  compare_cell_source_and_outputs x x = Ok true
  ∧ compare_cell_source_exact x x = Ok true
  ∧ compare_cell_source_approximate x x = Ok true.
Proof.
  intros x.
  destruct (predicate_monotonicity x x eq_refl eq_refl) as [H1 H2].
  assert (compare_cell_source_and_outputs x x = Ok true) as H0 by reflexivity.
  split; [exact H0|]. split; [exact (H1 H0) | exact (H2 (H1 H0))].
Defined.

(** C4, as the code has it.  A missing field is not a non-match: with
    equal cell types a missing [source] raises [KeyError] in all three
    predicates, and so does a missing [outputs] on a code cell in the
    strictest one. *)
Lemma predicates_missing_field_counterexample :
  let x := dict [("cell_type", VStr "code")] in
  let y := dict [("cell_type", VStr "code"); ("source", VStr "x = 1")] in
  getitem x "cell_type" = Ok (VStr "code")
  ∧ compare_cell_source_approximate x x = Raise (KeyError "source")
  ∧ compare_cell_source_exact x x = Raise (KeyError "source")
  ∧ compare_cell_source_and_outputs x x = Raise (KeyError "source")
  ∧ compare_cell_source_and_outputs y y = Raise (KeyError "outputs").
Proof. repeat split. Qed.

Lemma predicates_ok_on_well_formed (x y : value) :
  well_formed_cell x = true → well_formed_cell y = true →
  is_ok (compare_cell_source_approximate x y)
  ∧ is_ok (compare_cell_source_exact x y)
  ∧ is_ok (compare_cell_source_and_outputs x y).
Proof.
  intros Hx Hy.
  apply well_formed_cell_fields in Hx as (xt & xs & Hxt & Hxs & Hxtext & Hxo).
  apply well_formed_cell_fields in Hy as (yt & ys & Hyt & Hys & Hytext & Hyo).
  destruct (join_if_list_text xs Hxtext) as [a Ha].
  destruct (join_if_list_text ys Hytext) as [b Hb].
  split; [|split].
  - destruct (decide (xt = yt)) as [->|Hne].
    + rewrite (compare_cell_source_approximate_texts x y yt xs ys a b) by done.
      cbv zeta. repeat case_match; by eexists.
    + unfold compare_cell_source_approximate. rewrite Hxt, Hyt; simpl.
      rewrite bool_decide_eq_true_2 by done. by eexists.
  - unfold compare_cell_source_exact. rewrite Hxt, Hyt; simpl.
    case_bool_decide; [by eexists|]. rewrite Hxs, Hys; simpl.
    case_bool_decide; by eexists.
  - unfold compare_cell_source_and_outputs. rewrite Hxt, Hyt; simpl.
    case_bool_decide as Ht; [by eexists|]. rewrite Hxs, Hys; simpl.
    case_bool_decide; [by eexists|].
    case_bool_decide as Hcode; [|by eexists].
    assert (yt = VStr "code") as Hycode by congruence.
    destruct (Hxo Hcode) as [xo ->]. destruct (Hyo Hycode) as [yo ->]. simpl.
    case_bool_decide; by eexists.
Qed.

(** C4, amended.  On well-formed cells each predicate returns a boolean.
    On two mappings with different cell types each predicate returns false
    whatever else is missing; with equal cell types and no [source] in the
    first, each raises [KeyError]. *)
Theorem predicates_total_on_well_formed (x y : value) :
  (well_formed_cell x = true → well_formed_cell y = true →
     is_ok (compare_cell_source_approximate x y)
     ∧ is_ok (compare_cell_source_exact x y)
     ∧ is_ok (compare_cell_source_and_outputs x y))
  ∧ (∀ xt yt, getitem x "cell_type" = Ok xt → getitem y "cell_type" = Ok yt →
       xt ≠ yt →
       compare_cell_source_approximate x y = Ok false
       ∧ compare_cell_source_exact x y = Ok false
       ∧ compare_cell_source_and_outputs x y = Ok false)
  ∧ (∀ t d, getitem x "cell_type" = Ok t → getitem y "cell_type" = Ok t →
       x = VDict d → d !! "source" = None →
       compare_cell_source_approximate x y = Raise (KeyError "source")
       ∧ compare_cell_source_exact x y = Raise (KeyError "source")
       ∧ compare_cell_source_and_outputs x y = Raise (KeyError "source")).
Proof.
  split; [apply predicates_ok_on_well_formed|split].
  - intros xt yt Hxt Hyt Hne.
    unfold compare_cell_source_approximate, compare_cell_source_exact,
      compare_cell_source_and_outputs.
    rewrite Hxt, Hyt; simpl. by rewrite bool_decide_eq_true_2.
  - intros t d Hxt Hyt -> Hsrc.
    unfold compare_cell_source_approximate, compare_cell_source_exact,
      compare_cell_source_and_outputs.
    rewrite Hxt, Hyt; simpl.
    rewrite bool_decide_eq_false_2 by (intros H; by apply H).
    by rewrite Hsrc.
Qed.

Lemma predicates_total_on_well_formed_witness :
  let x := dict [("cell_type", VStr "code"); ("source", VStr "x = 1");
                 ("outputs", VList [])] in
  let y := dict [("cell_type", VStr "markdown"); ("source", VList [VStr "# x"])] in
  well_formed_cell x = true ∧ well_formed_cell y = true
  ∧ is_ok (compare_cell_source_approximate x y)
  ∧ is_ok (compare_cell_source_exact x y)
  ∧ is_ok (compare_cell_source_and_outputs x y).
Proof.
  intros x y.
  destruct (predicates_total_on_well_formed x y) as (Htotal & _ & _).
  split; [reflexivity|]. split; [reflexivity|].
  exact (Htotal eq_refl eq_refl).
Defined.

(** ** The cell diff builder *)

Section builder.
Context (diff : value → value → res script).

Lemma for_k_entries a b i j ks di :
  for_k diff a b i j ks di = (es ← snake_entries diff a b i j ks; Ok (di ++ es)).
Proof.
  revert di; induction ks as [|k ks IH]; intros di; simpl.
  - by rewrite app_nil_r.
  - destruct (index a (i + k)) as [x|]; simpl; [|done].
    destruct (index b (j + k)) as [y|]; simpl; [|done].
    unfold diff_single_cells, pair_entries.
    destruct (diff x y) as [[|e cd]|]; simpl; [| |done]; rewrite IH;
      destruct (snake_entries diff a b i j ks); simpl; try done.
    by rewrite <-app_assoc.
Qed.

Lemma for_snakes_walk a b sn di i0 j0 :
  for_snakes diff a b sn di i0 j0
  = (es ← walk_snakes diff a b i0 j0 sn; Ok (di ++ es)).
Proof.
  revert di i0 j0; induction sn as [|[[i j] n] sn IH]; intros di i0 j0; simpl.
  - by rewrite app_nil_r.
  - rewrite for_k_entries.
    destruct (snake_entries diff a b i j (seq 0 n)) as [ps|]; simpl; [|done].
    rewrite IH.
    destruct (walk_snakes diff a b (i + n) (j + n) sn) as [rest|]; simpl; [|done].
    f_equal. unfold gap_entries.
    destruct (i0 <? i), (j0 <? j); simpl; by rewrite <-?app_assoc.
Qed.

(** C2. The loop of [diff_cells] computes the script the design document
    describes: for the snakes followed by the terminal snake
    [(len(a), len(b), 0)], starting from [(0, 0)], before each snake a
    [SEQDELETE] at [i0] of the gap length when [i > i0], then a
    [SEQINSERT] at [i0] of [b[j0:j]] when [j > j0], then for every pair of
    the snake a [PATCH] at the index in [a] carrying the generic diff of
    the two cells when that diff is not empty; and [diff_cells] is that
    script for the snakes the snake computer returns at the top level. *)
Theorem diff_cells_builds_from_snakes
    (cs : list value → list value → rect → list predicate → Z → res (list snake))
    (a b : list value) :
  (∀ snakes, diff_from_snakes diff a b snakes = cell_diff_builder diff a b snakes)
  ∧ diff_cells diff cs a b
    = (snakes ← cs a b (0, 0, length a, length b)
                 [compare_cell_source_approximate; compare_cell_source_exact;
                  compare_cell_source_and_outputs] 2%Z;
       cell_diff_builder diff a b snakes).
Proof.
  assert (∀ snakes,
    diff_from_snakes diff a b snakes = cell_diff_builder diff a b snakes) as Hb.
  { intros snakes. unfold diff_from_snakes, cell_diff_builder.
    rewrite for_snakes_walk. by destruct (walk_snakes _ _ _ _ _ _). }
  split; [done|]. unfold diff_cells. simpl.
  destruct (cs a b _ _ _); simpl; [apply Hb | done].
Qed.

(** *** Order of the keys *)

Lemma index_lt a i x : index a i = Ok x → i < length a ∧ x ∈ a.
Proof.
  unfold index. destruct (a !! i) eqn:E; [|done]. intros [= <-].
  split; [by eapply lookup_lt_Some | by eapply list_elem_of_lookup_2].
Qed.

Lemma snake_entries_keys a b i j ks0 es :
  snake_entries diff a b i j ks0 = Ok es →
  ∃ ks, keyed es ks ∧ ks `sublist_of` ((λ k, i + k) <$> ks0).
Proof.
  revert es; induction ks0 as [|k ks0 IH]; intros es; simpl.
  - intros [= <-]. by exists [].
  - destruct (index a (i + k)) as [x|]; simpl; [|done].
    destruct (index b (j + k)) as [y|]; simpl; [|done].
    unfold pair_entries. destruct (diff x y) as [cd|]; simpl; [|done].
    destruct (snake_entries diff a b i j ks0) as [es'|]; simpl; [|done].
    intros [= <-]. destruct (IH _ eq_refl) as (ks & Hks & Hsub).
    destruct cd as [|e cd].
    + exists ks. split; [done | by apply sublist_cons].
    + exists ((i + k) :: ks). split; [|by apply sublist_skip].
      unfold keyed in *. simpl app. by rewrite !fmap_cons, Hks.
Qed.

Lemma gap_entries_keys b i0 j0 i j :
  ∃ ks, keyed (gap_entries b i0 j0 i j) ks ∧ Forall (λ k, k = i0) ks.
Proof.
  unfold gap_entries. destruct (i0 <? i), (j0 <? j); simpl.
  - exists [i0; i0]. split; [done | by repeat constructor].
  - exists [i0]. split; [done | by repeat constructor].
  - exists [i0]. split; [done | by repeat constructor].
  - exists []. split; [done | constructor].
Qed.

Lemma keyed_app es1 es2 ks1 ks2 :
  keyed es1 ks1 → keyed es2 ks2 → keyed (es1 ++ es2) (ks1 ++ ks2).
Proof. unfold keyed. intros H1 H2. by rewrite !fmap_app, H1, H2. Qed.

Lemma seq_shift_sorted i n : StronglySorted lt ((λ k, i + k) <$> seq 0 n).
Proof.
  assert (∀ s, StronglySorted lt ((λ k, i + k) <$> seq s n)) as H; [|apply H].
  induction n as [|n IH]; intros s; simpl; constructor; [apply IH|].
  apply list.Forall_forall. intros k (k' & -> & Hk')%list_elem_of_fmap.
  apply elem_of_seq in Hk'. lia.
Qed.

Lemma StronglySorted_sublist {A} (R : relation A) (l1 l2 : list A) :
  l1 `sublist_of` l2 → StronglySorted R l2 → StronglySorted R l1.
Proof.
  induction 1 as [|x l1 l2 Hsub IH|x l1 l2 Hsub IH]; intros Hs.
  - constructor.
  - apply StronglySorted_inv in Hs as [Hs Hall]. constructor; [by apply IH|].
    rewrite list.Forall_forall in Hall |- *.
    intros y Hy. apply Hall. by eapply elem_of_sublist.
  - apply StronglySorted_inv in Hs as [Hs _]. by apply IH.
Qed.

Lemma walk_snakes_keys a b sn i0 j0 es :
  in_order i0 j0 sn →
  walk_snakes diff a b i0 j0 sn = Ok es →
  ∃ ks, keyed es ks ∧ StronglySorted le ks ∧ Forall (le i0) ks.
Proof.
  revert i0 j0 es; induction sn as [|[[i j] n] sn IH]; intros i0 j0 es; simpl.
  - intros _ [= <-]. exists []. repeat split; constructor.
  - intros (Hi & Hj & Hord).
    destruct (snake_entries diff a b i j (seq 0 n)) as [ps|] eqn:Hps; simpl; [|done].
    destruct (walk_snakes diff a b (i + n) (j + n) sn) as [rest|] eqn:Hrest;
      simpl; [|done].
    intros [= <-].
    destruct (IH _ _ _ Hord Hrest) as (kr & Hkr & Hsr & Hbr).
    destruct (snake_entries_keys _ _ _ _ _ _ Hps) as (kp & Hkp & Hsub).
    destruct (gap_entries_keys b i0 j0 i j) as (kg & Hkg & Hbg).
    assert (Forall (λ k, i ≤ k < i + n) kp) as Hbp.
    { apply list.Forall_forall. intros k Hk.
      eapply elem_of_sublist in Hk; [|exact Hsub].
      apply list_elem_of_fmap in Hk as (k' & -> & Hk').
      apply elem_of_seq in Hk'. lia. }
    assert (StronglySorted le kp) as Hsp.
    { eapply StronglySorted_sublist in Hsub; [|apply seq_shift_sorted].
      clear -Hsub. induction Hsub as [|k kp Hs IH Hall]; constructor; [done|].
      eapply list.Forall_impl; [exact Hall|]. simpl; lia. }
    exists (kg ++ kp ++ kr). split; [by repeat apply keyed_app|].
    rewrite list.Forall_forall in Hbg, Hbp, Hbr.
    split.
    + apply StronglySorted_app_2.
      * intros k1 k2 Hk1 [Hk2|Hk2]%elem_of_app.
        -- apply Hbg in Hk1. apply Hbp in Hk2. lia.
        -- apply Hbg in Hk1. apply Hbr in Hk2. lia.
      * clear -Hbg. induction kg as [|k kg IH]; constructor.
        -- apply IH. intros k' Hk'. apply Hbg. by right.
        -- apply list.Forall_forall. intros k' Hk'.
           rewrite (Hbg k), (Hbg k'); [done | by right | by left].
      * apply StronglySorted_app_2; [|done..].
        intros k1 k2 Hk1 Hk2. apply Hbp in Hk1. apply Hbr in Hk2. lia.
    + apply list.Forall_forall.
      intros k [Hk|[Hk|Hk]%elem_of_app]%elem_of_app.
      * apply Hbg in Hk. lia.
      * apply Hbp in Hk. lia.
      * apply Hbr in Hk. lia.
Qed.

Lemma monotonic_in_order_from (a b : list value) sn i0 j0 :
  Forall (snake_in_rect (length a) (length b)) sn →
  Sorted snake_before sn →
  (∀ s, head sn = Some s → i0 ≤ s.1.1 ∧ j0 ≤ s.1.2) →
  i0 ≤ length a → j0 ≤ length b →
  in_order i0 j0 (sn ++ [(length a, length b, 0)]).
Proof.
  intros Hrect; revert i0 j0.
  induction Hrect as [|[[i j] n] sn [Hin Hjn] _ IH]; intros i0 j0 Hs Hhd Hi0 Hj0; simpl in *.
  - done.
  - destruct (Hhd _ eq_refl) as [Hi Hj]. simpl in Hi, Hj.
    apply Sorted_inv in Hs as [Hs Hrel].
    split; [done|]. split; [done|]. apply IH; [done | | done..].
    intros s Hs'. destruct sn as [|s' sn]; simplify_eq/=.
    apply HdRel_inv in Hrel. destruct Hrel as (_ & _ & ? & ?). done.
Qed.

Lemma monotonic_in_order (a b : list value) sn :
  monotonic_snakes a b sn → in_order 0 0 (sn ++ [(length a, length b, 0)]).
Proof.
  intros [Hrect Hs]. apply monotonic_in_order_from; try done; try lia.
Qed.

(** Within a rectangle the walk fails only when the differ does. *)
Lemma snake_entries_total a b i j n :
  i + n ≤ length a → j + n ≤ length b →
  (∀ x y, x ∈ a → y ∈ b → is_ok (diff x y)) →
  is_ok (snake_entries diff a b i j (seq 0 n)).
Proof.
  intros Hi Hj Hd.
  assert (∀ ks, Forall (λ k, k < n) ks →
            is_ok (snake_entries diff a b i j ks)) as H.
  { induction ks as [|k ks IH]; intros Hks; simpl; [by eexists|].
    apply list.Forall_cons in Hks as [Hk Hks].
    destruct (lookup_lt_is_Some_2 a (i + k)) as [x Hx]; [lia|].
    destruct (lookup_lt_is_Some_2 b (j + k)) as [y Hy]; [lia|].
    unfold index. rewrite Hx, Hy; simpl. unfold pair_entries.
    destruct (Hd x y) as [cd ->];
      [by eapply list_elem_of_lookup_2 | by eapply list_elem_of_lookup_2 |].
    simpl. destruct (IH Hks) as [es ->]. by eexists. }
  apply H. apply list.Forall_forall. intros k Hk%elem_of_seq. lia.
Qed.

Lemma walk_snakes_total a b sn i0 j0 :
  Forall (snake_in_rect (length a) (length b)) sn →
  (∀ x y, x ∈ a → y ∈ b → is_ok (diff x y)) →
  is_ok (walk_snakes diff a b i0 j0 sn).
Proof.
  intros Hrect Hd; revert i0 j0.
  induction Hrect as [|[[i j] n] sn [Hin Hjn] _ IH]; intros i0 j0; simpl in *.
  - by eexists.
  - destruct (snake_entries_total a b i j n) as [ps ->]; [done..|]. simpl.
    destruct (IH (i + n) (j + n)) as [rest ->]. by eexists.
Qed.

(** C8. For a monotonic, non-overlapping snake list inside the rectangle,
    every entry of the script [diff_cells] builds from it is keyed by an
    index of the source sequence [a], and the keys are in ascending
    (non-decreasing: a deletion and an insertion at the same gap share
    their key) order; the script exists whenever the differ does not fail
    on a pair of cells. *)
Theorem diff_cells_keys_ascending (a b : list value) (snakes : list snake) :
  monotonic_snakes a b snakes →
  (∀ di, diff_from_snakes diff a b snakes = Ok di →
     ∃ ks, keyed di ks ∧ Sorted le ks)
  ∧ ((∀ x y, x ∈ a → y ∈ b → is_ok (diff x y)) →
     is_ok (diff_from_snakes diff a b snakes)).
Proof.
  intros Hmono. pose proof (monotonic_in_order _ _ _ Hmono) as Hord.
  destruct Hmono as [Hrect Hsorted].
  assert (diff_from_snakes diff a b snakes = cell_diff_builder diff a b snakes) as ->.
  { unfold diff_from_snakes, cell_diff_builder.
    rewrite for_snakes_walk. by destruct (walk_snakes _ _ _ _ _ _). }
  unfold cell_diff_builder. split.
  - intros di Hdi.
    destruct (walk_snakes_keys _ _ _ _ _ _ Hord Hdi) as (ks & Hks & Hs & _).
    exists ks. split; [done | by apply StronglySorted_Sorted].
  - intros Hd. apply walk_snakes_total; [|done].
    apply Forall_app. split; [done|]. repeat constructor; simpl; lia.
Qed.
End builder.

(** ** The reference differ meets its contract *)

Module reference_facts.
Import reference.

Lemma list_entries_nil i (a b : list value) :
  list_entries i a b = [] ↔ a = b.
Proof.
  revert i b; induction a as [|x a IH]; intros i [|y b]; simpl; try done.
  case_decide as Hxy; [|split; [done | congruence]].
  subst. rewrite IH. split; congruence.
Qed.

Lemma key_entry_none k (va vb : option value) :
  key_entry k va vb = None ↔ va = vb.
Proof.
  destruct va as [x|], vb as [y|]; simpl; try done.
  case_decide; split; congruence.
Qed.

Lemma omap_nil {A B} (f : A → option B) (l : list A) :
  omap f l = [] ↔ Forall (λ x, f x = None) l.
Proof.
  induction l as [|x l IH]; simpl; [by split; [constructor|]|].
  destruct (f x) eqn:E.
  - split; [done | intros [? _]%list.Forall_cons; congruence].
  - rewrite IH. split; [by constructor | by intros [_ ?]%list.Forall_cons].
Qed.

Theorem diff_generic_differ : generic_differ diff.
Proof.
  intros a b. destruct a as [|za|sa|la|da], b as [|zb|sb|lb|db]; simpl;
    try (case_decide; split; congruence); try (split; congruence).
  - split; [intros [= H%list_entries_nil]; congruence|].
    intros [= ->]. f_equal. by apply list_entries_nil.
  - split; [intros [= H]|intros [= ->]; f_equal].
    + f_equal. apply omap_nil in H. rewrite list.Forall_forall in H.
      apply map_eq. intros k.
      destruct (decide (k ∈ dom da ∪ dom db)) as [Hk|Hk].
      * apply elem_of_elements, H, key_entry_none in Hk. done.
      * apply not_elem_of_union in Hk as [Ha Hb].
        apply not_elem_of_dom in Ha, Hb. congruence.
    + apply omap_nil, list.Forall_forall. intros k _. by apply key_entry_none.
Qed.

(** *** The reference snake computer meets its contract *)

Lemma longest_chain_nil_r P a i j : longest_chain P a i [] j = Ok [].
Proof. by destruct a. Qed.

Lemma longest_chain_cons P x a i y b j :
  longest_chain P (x :: a) i (y :: b) j
  = (m ← P x y;
     if m : bool then c ← longest_chain P a (S i) b (S j); Ok ((i, j) :: c)
     else
       c1 ← longest_chain P a (S i) (y :: b) j;
       c2 ← longest_chain P (x :: a) i b (S j);
       Ok (if length c1 <? length c2 then c2 else c1)).
Proof. done. Qed.

Local Arguments longest_chain : simpl never.

Lemma ascending_pairs_weaken i0 j0 i1 j1 i0' j0' i1' j1' c :
  ascending_pairs i0 j0 i1 j1 c →
  i0' ≤ i0 → j0' ≤ j0 → i1 ≤ i1' → j1 ≤ j1' →
  ascending_pairs i0' j0' i1' j1' c.
Proof.
  revert i0 j0 i0' j0'; induction c as [|[i j] c IH];
    intros i0 j0 i0' j0'; simpl; [done|].
  intros (Hi & Hj & Hc) ? ? ? ?.
  split; [lia|]. split; [lia|]. eapply IH; [exact Hc | lia..].
Qed.

Lemma ascending_pairs_app i0 j0 i j i1 j1 g r :
  ascending_pairs i0 j0 i j g → i0 ≤ i < i1 → j0 ≤ j < j1 →
  ascending_pairs (S i) (S j) i1 j1 r →
  ascending_pairs i0 j0 i1 j1 (g ++ (i, j) :: r).
Proof.
  revert i0 j0; induction g as [|[i' j'] g IH]; intros i0 j0; simpl.
  - intros _ ? ? ?. done.
  - intros (Hi & Hj & Hg) ? ? Hr.
    split; [lia|]. split; [lia|]. apply IH; [done | lia | lia | done].
Qed.

Lemma longest_chain_ascending P a i b j c :
  longest_chain P a i b j = Ok c →
  ascending_pairs i j (i + length a) (j + length b) c.
Proof.
  revert i b j c; induction a as [|x a IHa]; intros i b j c.
  { intros [= <-]. done. }
  revert j c; induction b as [|y b IHb]; intros j c.
  { rewrite longest_chain_nil_r. intros [= <-]. done. }
  rewrite longest_chain_cons.
  destruct (P x y) as [[|]|]; simpl; [| |done].
  - destruct (longest_chain P a (S i) b (S j)) as [tl|] eqn:Htl; simpl; [|done].
    intros [= <-]. simpl. split; [lia|]. split; [lia|].
    eapply ascending_pairs_weaken; [by apply IHa | lia..].
  - destruct (longest_chain P a (S i) (y :: b) j) as [c1|] eqn:H1; simpl; [|done].
    destruct (longest_chain P (x :: a) i b (S j)) as [c2|] eqn:H2; simpl; [|done].
    intros [= <-]. case_match.
    + eapply ascending_pairs_weaken; [by apply IHb | simpl; lia..].
    + eapply ascending_pairs_weaken; [by apply IHa | simpl; lia..].
Qed.

(** **** Optimality of the chain *)

Global Instance pair_before_trans : Transitive pair_before.
Proof. intros p q r [] []. split; lia. Qed.

Lemma chain_nil_l P (b : list value) c : chain P [] b c → c = [].
Proof.
  intros [_ Hacc]. destruct c as [|p c]; [done|].
  apply list.Forall_cons in Hacc as [(x & y & Hx & _) _]. done.
Qed.

Lemma chain_nil_r P (a : list value) c : chain P a [] c → c = [].
Proof.
  intros [_ Hacc]. destruct c as [|p c]; [done|].
  apply list.Forall_cons in Hacc as [(x & y & _ & Hy & _) _]. done.
Qed.

Lemma chain_tail P a b p c : chain P a b (p :: c) → chain P a b c.
Proof.
  intros [Hs Hacc]. apply Sorted_inv in Hs as [Hs _].
  apply list.Forall_cons in Hacc as [_ Hacc]. done.
Qed.

Lemma chain_after_head P a b p c :
  chain P a b (p :: c) → Forall (pair_before p) c.
Proof.
  intros [Hs _]. apply (Sorted_StronglySorted _) in Hs.
  by apply StronglySorted_inv in Hs as [_ ?].
Qed.

Lemma sorted_shift di dj c :
  Sorted pair_before c → Forall (λ p, di ≤ p.1 ∧ dj ≤ p.2) c →
  Sorted pair_before (shift di dj <$> c).
Proof.
  induction 1 as [|p c Hs IH Hhd]; intros Hall; simpl; [constructor|].
  apply list.Forall_cons in Hall as [Hp Hall].
  constructor; [by apply IH|].
  destruct Hhd as [|q c [? ?]]; simpl; constructor.
  apply list.Forall_cons in Hall as [Hq _]. unfold shift; split; simpl; lia.
Qed.

Lemma chain_shift_l P x a b c :
  chain P (x :: a) b c → Forall (λ p, 1 ≤ p.1) c →
  chain P a b (shift 1 0 <$> c).
Proof.
  intros [Hs Hacc] Hall. split.
  - apply sorted_shift; [done|].
    eapply list.Forall_impl; [exact Hall|]. simpl; lia.
  - apply Forall_fmap. rewrite list.Forall_forall in Hall, Hacc |- *.
    intros p Hp. destruct (Hacc p Hp) as (x' & y' & Hx & Hy & HP).
    specialize (Hall p Hp). exists x', y'. unfold shift; simpl.
    rewrite Nat.sub_0_r. split; [|done].
    destruct (p.1) as [|n]; [lia|]. simpl in *. by rewrite Nat.sub_0_r.
Qed.

Lemma chain_shift_r P a y b c :
  chain P a (y :: b) c → Forall (λ p, 1 ≤ p.2) c →
  chain P a b (shift 0 1 <$> c).
Proof.
  intros [Hs Hacc] Hall. split.
  - apply sorted_shift; [done|].
    eapply list.Forall_impl; [exact Hall|]. simpl; lia.
  - apply Forall_fmap. rewrite list.Forall_forall in Hall, Hacc |- *.
    intros p Hp. destruct (Hacc p Hp) as (x' & y' & Hx & Hy & HP).
    specialize (Hall p Hp). exists x', y'. unfold shift; simpl.
    rewrite Nat.sub_0_r. split; [done|]. split; [|done].
    destruct (p.2) as [|n]; [lia|]. simpl in *. by rewrite Nat.sub_0_r.
Qed.

Lemma longest_chain_maximal P a i b j c c' :
  longest_chain P a i b j = Ok c → chain P a b c' → length c' ≤ length c.
Proof.
  revert i b j c c'; induction a as [|x a IHa]; intros i b j c c'.
  { intros _ ->%chain_nil_l. simpl; lia. }
  revert j c c'; induction b as [|y b IHb]; intros j c c'.
  { intros _ ->%chain_nil_r. simpl; lia. }
  rewrite longest_chain_cons. intros Hc Hc'.
  destruct c' as [|p r]; [simpl; lia|].
  pose proof (chain_after_head _ _ _ _ _ Hc') as Hafter.
  destruct (P x y) as [[|]|] eqn:HP; simpl in Hc; [| |done].
  - destruct (longest_chain P a (S i) b (S j)) as [tl|] eqn:Htl; simpl in Hc; [|done].
    injection Hc as <-. simpl. apply le_n_S.
    apply chain_tail in Hc'.
    assert (Forall (λ q, 1 ≤ q.1 ∧ 1 ≤ q.2) r) as Hr.
    { eapply list.Forall_impl; [exact Hafter|]. intros q [? ?]. lia. }
    apply chain_shift_l in Hc';
      [|eapply list.Forall_impl; [exact Hr|]; by intros q [? ?]].
    apply chain_shift_r in Hc'.
    + rewrite <-(IHa _ _ _ _ _ Htl Hc'), !length_fmap. done.
    + apply Forall_fmap. eapply list.Forall_impl; [exact Hr|].
      intros q [? ?]. unfold shift; simpl. lia.
  - destruct (longest_chain P a (S i) (y :: b) j) as [c1|] eqn:H1; simpl in Hc; [|done].
    destruct (longest_chain P (x :: a) i b (S j)) as [c2|] eqn:H2; simpl in Hc; [|done].
    injection Hc as <-.
    assert (1 ≤ p.1 ∨ 1 ≤ p.2) as [Hp|Hp].
    { destruct Hc' as [_ Hacc].
      apply list.Forall_cons in Hacc as [(x' & y' & Hx & Hy & HP') _].
      destruct p as [[|p1] [|p2]]; simpl in *; [|lia..].
      injection Hx as <-. injection Hy as <-. congruence. }
    + assert (length (p :: r) ≤ length c1) as Hle.
      { apply chain_shift_l in Hc'.
        - rewrite <-(IHa _ _ _ _ _ H1 Hc'), length_fmap. done.
        - constructor; [done|]. eapply list.Forall_impl; [exact Hafter|].
          intros q [? ?]. lia. }
      destruct (Nat.ltb_spec (length c1) (length c2)); lia.
    + assert (length (p :: r) ≤ length c2) as Hle.
      { apply chain_shift_r in Hc'.
        - rewrite <-(IHb _ _ _ H2 Hc'), length_fmap. done.
        - constructor; [done|]. eapply list.Forall_impl; [exact Hafter|].
          intros q [? ?]. lia. }
      destruct (Nat.ltb_spec (length c1) (length c2)); lia.
Qed.

(** **** Filling the gaps keeps the chain and its order *)

Lemma fill_ascending rec a i0 b j0 c r :
  ascending_result rec →
  ascending_pairs i0 j0 (i0 + length a) (j0 + length b) c →
  fill rec a i0 b j0 c = Ok r →
  ascending_pairs i0 j0 (i0 + length a) (j0 + length b) r.
Proof.
  intros Hrec; revert a i0 b j0 r.
  induction c as [|[i j] c IH]; intros a i0 b j0 r; simpl.
  - intros _. apply Hrec.
  - intros (Hi & Hj & Hc).
    destruct (rec (take (i - i0) a) i0 (take (j - j0) b) j0) as [g|] eqn:Hg;
      simpl; [|done].
    destruct (fill rec (drop (S (i - i0)) a) (S i) (drop (S (j - j0)) b) (S j) c)
      as [r'|] eqn:Hr; simpl; [|done].
    intros [= <-].
    apply Hrec in Hg. rewrite !length_take in Hg.
    apply IH in Hr.
    + rewrite !length_drop in Hr.
      apply ascending_pairs_app; [|lia|lia|].
      * eapply ascending_pairs_weaken; [exact Hg | lia..].
      * eapply ascending_pairs_weaken; [exact Hr | lia..].
    + rewrite !length_drop.
      eapply ascending_pairs_weaken; [exact Hc | lia..].
Qed.

Lemma fill_length rec a i0 b j0 c r :
  fill rec a i0 b j0 c = Ok r → length c ≤ length r.
Proof.
  revert a i0 b j0 r; induction c as [|[i j] c IH]; intros a i0 b j0 r; simpl.
  - lia.
  - destruct (rec _ _ _ _) as [g|]; simpl; [|done].
    destruct (fill rec _ _ _ _ c) as [r'|] eqn:Hr; simpl; [|done].
    intros [= <-]. apply IH in Hr. rewrite length_app. simpl. lia.
Qed.

Lemma multilevel_ascending ps : ascending_result (multilevel ps).
Proof.
  induction ps as [|P ps IH]; intros a i0 b j0 c; simpl.
  - intros [= <-]. done.
  - destruct (longest_chain P a i0 b j0) as [c0|] eqn:Hc0; simpl; [|done].
    apply fill_ascending; [done|]. by eapply longest_chain_ascending.
Qed.

(** **** Totality *)

Lemma longest_chain_total P a i b j :
  (∀ x y, x ∈ a → y ∈ b → is_ok (P x y)) → is_ok (longest_chain P a i b j).
Proof.
  revert i b j; induction a as [|x a IHa]; intros i b j HP; [by eexists|].
  revert j; induction b as [|y b IHb]; intros j.
  { rewrite longest_chain_nil_r. by eexists. }
  rewrite longest_chain_cons.
  destruct (HP x y) as [m ->]; [by left..|]. simpl.
  destruct m.
  - destruct (IHa (S i) b (S j)) as [c ->]; [|by eexists].
    intros x' y' ? ?. apply HP; by right.
  - destruct (IHa (S i) (y :: b) j) as [c1 ->].
    { intros x' y' ? ?. apply HP; [by right | done]. }
    destruct (IHb) with (j := S j) as [c2 ->]; [|by eexists].
    intros x' y' ? ?. apply HP; [done | by right].
Qed.

Lemma fill_total rec (a : list value) i0 (b : list value) j0 c :
  (∀ a' i b' j, a' ⊆ a → b' ⊆ b → is_ok (rec a' i b' j)) →
  is_ok (fill rec a i0 b j0 c).
Proof.
  revert a i0 b j0; induction c as [|[i j] c IH]; intros a i0 b j0 Hrec; simpl.
  - by apply Hrec.
  - destruct (Hrec (take (i - i0) a) i0 (take (j - j0) b) j0) as [g ->];
      [apply subseteq_take..|]. simpl.
    destruct (IH (drop (S (i - i0)) a) (S i) (drop (S (j - j0)) b) (S j))
      as [r ->]; [|by eexists].
    intros a' i' b' j' Ha Hb. apply Hrec.
    + etrans; [exact Ha | apply subseteq_drop].
    + etrans; [exact Hb | apply subseteq_drop].
Qed.

Lemma multilevel_total (ps : list predicate) a i0 b j0 :
  (∀ P x y, P ∈ ps → x ∈ a → y ∈ b → is_ok (P x y)) →
  is_ok (multilevel ps a i0 b j0).
Proof.
  revert a i0 b j0; induction ps as [|P ps IH]; intros a i0 b j0 HP; simpl.
  - by eexists.
  - destruct (longest_chain_total P a i0 b j0) as [c ->].
    { intros x y. apply HP. by left. }
    simpl. apply fill_total. intros a' i b' j Ha Hb. apply IH.
    intros Q x y HQ Hx Hy. apply HP; [by right | by apply Ha | by apply Hb].
Qed.

(** **** Merging pairs into snakes *)

Lemma merge_pairs_ascending i0 j0 i1 j1 c :
  ascending_pairs i0 j0 i1 j1 c →
  ascending_snakes i0 j0 i1 j1 (merge_pairs c).
Proof.
  revert i0 j0; induction c as [|[i j] c IH]; intros i0 j0; simpl; [done|].
  intros (Hi & Hj & Hc). apply IH in Hc.
  destruct (merge_pairs c) as [|[[i' j'] n] sn]; simpl in *.
  - repeat split; lia.
  - destruct Hc as (? & ? & ? & ? & ? & Hsn).
    destruct (Nat.eqb_spec i' (S i)) as [->|]; simpl;
      [destruct (Nat.eqb_spec j' (S j)) as [->|]; simpl|].
    + repeat split; try lia.
      by replace (i + S n) with (S i + n) by lia;
         replace (j + S n) with (S j + n) by lia.
    + repeat split; try lia.
      by replace (i + 1) with (S i) by lia; replace (j + 1) with (S j) by lia.
    + repeat split; try lia.
      by replace (i + 1) with (S i) by lia; replace (j + 1) with (S j) by lia.
Qed.

Lemma merge_pairs_matched c : matched (merge_pairs c) = length c.
Proof.
  unfold matched. induction c as [|[i j] c IH]; simpl; [done|].
  destruct (merge_pairs c) as [|[[i' j'] n] sn]; simpl in *; [lia|].
  destruct ((i' =? S i) && (j' =? S j)); simpl; lia.
Qed.

Lemma ascending_snakes_monotonic i0 j0 i1 j1 sn :
  ascending_snakes i0 j0 i1 j1 sn →
  Forall (snake_in_rect i1 j1) sn ∧ Sorted snake_before sn.
Proof.
  revert i0 j0; induction sn as [|[[i j] n] sn IH]; intros i0 j0; simpl.
  - intros _. split; constructor.
  - intros (? & ? & ? & ? & ? & Hsn).
    destruct (IH _ _ Hsn) as [Hrect Hs].
    split; [constructor; [split; simpl; lia | done]|].
    constructor; [done|].
    destruct sn as [|[[i' j'] n'] sn]; constructor.
    destruct Hsn as (? & ? & _). unfold snake_before; simpl. lia.
Qed.

Lemma slice_full (a : list value) : slice a 0 (length a) = a.
Proof. unfold slice. by rewrite drop_0, Nat.sub_0_r, firstn_all. Qed.

Lemma strictest_first (ps : list predicate) n P :
  ps !! n = Some P →
  reverse (take (S n) ps) = P :: reverse (take n ps).
Proof. intros H. by rewrite (take_S_r _ _ _ H), reverse_snoc. Qed.

Lemma compute_snakes_multilevel_full a b ps level sn :
  compute_snakes_multilevel a b (0, 0, length a, length b) ps level = Ok sn →
  (0 ≤ level)%Z →
  ∃ c, multilevel (reverse (take (S (Z.to_nat level)) ps)) a 0 b 0 = Ok c
       ∧ sn = merge_pairs c.
Proof.
  unfold compute_snakes_multilevel. rewrite !slice_full.
  intros H Hlevel. destruct (Z.ltb_spec level 0); [lia|].
  destruct (Z.leb_spec (Z.of_nat (length ps)) level); [done|].
  destruct (multilevel _ a 0 b 0) as [c|]; simpl in H; [|done].
  injection H as <-. by exists c.
Qed.

Theorem compute_snakes_multilevel_snake_computer :
  snake_computer compute_snakes_multilevel.
Proof.
  split.
  - intros a b ps level HP [Hlo Hhi]. unfold compute_snakes_multilevel.
    rewrite !slice_full.
    destruct (Z.ltb_spec level 0); [lia|].
    destruct (Z.leb_spec (Z.of_nat (length ps)) level); [lia|].
    destruct (multilevel_total (reverse (take (S (Z.to_nat level)) ps)) a 0 b 0)
      as [c ->]; [|by eexists].
    intros P x y HPin. apply HP.
    rewrite elem_of_reverse in HPin. by eapply subseteq_take.
  - intros a b ps level sn H.
    unfold compute_snakes_multilevel in H. rewrite !slice_full in H.
    destruct (Z.ltb_spec level 0).
    { injection H as <-. split; constructor. }
    destruct (Z.leb_spec (Z.of_nat (length ps)) level); [done|].
    destruct (multilevel _ a 0 b 0) as [c|] eqn:Hc; simpl in H; [|done].
    injection H as <-.
    apply multilevel_ascending, merge_pairs_ascending in Hc.
    by apply ascending_snakes_monotonic in Hc.
  - intros a b ps level sn P c' H HP Hlevel Hc'.
    apply compute_snakes_multilevel_full in H as (c & Hc & ->); [|done].
    rewrite (strictest_first _ _ _ HP) in Hc. simpl in Hc.
    destruct (longest_chain P a 0 b 0) as [c0|] eqn:Hc0; simpl in Hc; [|done].
    rewrite merge_pairs_matched.
    etrans; [by eapply longest_chain_maximal|]. by eapply fill_length.
Qed.
End reference_facts.

(** ** The notebook differ *)

Section notebook.
Context (diff : value → value → res script).
Context (cs : list value → list value → rect → list predicate → Z
              → res (list snake)).

(** The store after a call: the caller's objects as they were, followed
    by the two copies without their ["cells"]. *)
Lemma diff_notebooks_run (σ : store) nba nbb da db ca cb :
  σ !! nba = Some da → σ !! nbb = Some db →
  da !! "cells" = Some ca → db !! "cells" = Some cb →
  diff_notebooks diff cs nba nbb σ
  = (nbdiff ← diff (VDict (delete "cells" da)) (VDict (delete "cells" db));
     cdiff ← (a ← as_list ca; b ← as_list cb; diff_cells diff cs a b);
     Ok (if nonempty cdiff then nbdiff ++ [PATCH (Name "cells") cdiff]
         else nbdiff),
     σ ++ [delete "cells" da; delete "cells" db]).
Proof.
  intros Ha Hb Hca Hcb.
  unfold diff_notebooks, mbind, M_bind, dict_copy at 1. rewrite Ha.
  unfold dict_copy. rewrite (lookup_app_l_Some _ _ _ _ Hb).
  unfold dict_pop at 1.
  assert (((σ ++ [da]) ++ [db]) !! length σ = Some da) as ->.
  { rewrite lookup_app_l by (rewrite length_app; simpl; lia).
    by rewrite list_lookup_middle. }
  rewrite Hca. unfold dict_pop.
  assert (<[length σ:=delete "cells" da]> ((σ ++ [da]) ++ [db])
          = σ ++ [delete "cells" da; db]) as ->.
  { rewrite <-app_assoc. simpl.
    rewrite insert_app_r_alt, Nat.sub_diag by lia. done. }
  assert ((σ ++ [delete "cells" da; db]) !! length (σ ++ [da]) = Some db) as ->.
  { rewrite length_app. simpl.
    rewrite lookup_app_r by lia. by replace (length σ + 1 - length σ) with 1 by lia. }
  rewrite Hcb.
  assert (<[length (σ ++ [da]):=delete "cells" db]> (σ ++ [delete "cells" da; db])
          = σ ++ [delete "cells" da; delete "cells" db]) as ->.
  { rewrite length_app. simpl. rewrite insert_app_r_alt by lia.
    by replace (length σ + 1 - length σ) with 1 by lia. }
  unfold load.
  assert ((σ ++ [delete "cells" da; delete "cells" db]) !! length σ
          = Some (delete "cells" da)) as ->.
  { by rewrite list_lookup_middle. }
  assert ((σ ++ [delete "cells" da; delete "cells" db]) !! length (σ ++ [da])
          = Some (delete "cells" db)) as ->.
  { rewrite length_app. simpl.
    rewrite lookup_app_r by lia. by replace (length σ + 1 - length σ) with 1 by lia. }
  unfold lift.
  destruct (diff _ _) as [nbdiff|]; simpl; [|done].
  by destruct (as_list ca) as [a|], (as_list cb) as [b|]; simpl;
    try destruct (diff_cells diff cs a b).
Qed.

(** Whatever the outcome, the objects of the caller are left as they
    were: the call only allocates, and writes to what it allocated. *)
Lemma diff_notebooks_frame (σ : store) nba nbb :
  ∃ new, (diff_notebooks diff cs nba nbb σ).2 = σ ++ new.
Proof.
  unfold diff_notebooks, mbind, M_bind, dict_copy at 1.
  destruct (σ !! nba) as [da|] eqn:Ha; [|by exists []; rewrite app_nil_r].
  unfold dict_copy.
  destruct ((σ ++ [da]) !! nbb) as [db|] eqn:Hb; [|by exists [da]].
  unfold dict_pop at 1.
  assert (((σ ++ [da]) ++ [db]) !! length σ = Some da) as ->.
  { rewrite lookup_app_l by (rewrite length_app; simpl; lia).
    by rewrite list_lookup_middle. }
  destruct (da !! "cells") as [ca|] eqn:Hca;
    [|exists [da; db]; by rewrite <-app_assoc].
  unfold dict_pop.
  assert (<[length σ:=delete "cells" da]> ((σ ++ [da]) ++ [db])
          = σ ++ [delete "cells" da; db]) as ->.
  { rewrite <-app_assoc. simpl.
    rewrite insert_app_r_alt, Nat.sub_diag by lia. done. }
  assert ((σ ++ [delete "cells" da; db]) !! length (σ ++ [da]) = Some db) as ->.
  { rewrite length_app. simpl.
    rewrite lookup_app_r by lia. by replace (length σ + 1 - length σ) with 1 by lia. }
  destruct (db !! "cells") as [cb|] eqn:Hcb; [|by eexists].
  assert (<[length (σ ++ [da]):=delete "cells" db]> (σ ++ [delete "cells" da; db])
          = σ ++ [delete "cells" da; delete "cells" db]) as ->.
  { rewrite length_app. simpl. rewrite insert_app_r_alt by lia.
    by replace (length σ + 1 - length σ) with 1 by lia. }
  unfold load.
  assert ((σ ++ [delete "cells" da; delete "cells" db]) !! length σ
          = Some (delete "cells" da)) as ->.
  { by rewrite list_lookup_middle. }
  assert ((σ ++ [delete "cells" da; delete "cells" db]) !! length (σ ++ [da])
          = Some (delete "cells" db)) as ->.
  { rewrite length_app. simpl.
    rewrite lookup_app_r by lia. by replace (length σ + 1 - length σ) with 1 by lia. }
  unfold lift.
  destruct (diff _ _) as [nbdiff|]; simpl; [|by eexists].
  by destruct (as_list ca) as [a|], (as_list cb) as [b|]; simpl;
    try destruct (diff_cells diff cs a b); eexists.
Qed.

(** C7. After the call both input mappings are the mappings they were
    before it, with all their keys and values (["cells"] included when
    they have it), whether the call returns or raises; and so is every
    other object of the caller. *)
Theorem diff_notebooks_does_not_mutate (σ : store) nba nbb da db :
  σ !! nba = Some da → σ !! nbb = Some db →
  let σ' := (diff_notebooks diff cs nba nbb σ).2 in
  σ' !! nba = Some da ∧ σ' !! nbb = Some db
  ∧ (∀ l d, σ !! l = Some d → σ' !! l = Some d).
Proof.
  intros Ha Hb σ'.
  destruct (diff_notebooks_frame σ nba nbb) as [new Hnew].
  assert (∀ l d, σ !! l = Some d → σ' !! l = Some d) as Hframe.
  { intros l d Hl. unfold σ'. rewrite Hnew. by apply lookup_app_l_Some. }
  rewrite (Hframe _ _ Ha), (Hframe _ _ Hb). done.
Qed.

(** Without the copy the pop would be visible to the caller. *)
Lemma dict_pop_mutates (σ : store) l d v :
  σ !! l = Some d → d !! "cells" = Some v →
  (dict_pop l "cells" σ).2 !! l = Some (delete "cells" d)
  ∧ delete "cells" d !! "cells" = None.
Proof.
  intros Hl Hv. unfold dict_pop. rewrite Hl, Hv. simpl.
  split; [|apply lookup_delete_eq].
  apply list_lookup_insert_eq. by eapply lookup_lt_Some.
Qed.

(** *** Empty script and equality *)

Context (Hdiff : generic_differ diff) (Hcs : snake_computer cs).

Lemma diff_refl x : diff x x = Ok [].
Proof. by apply Hdiff. Qed.

Lemma snake_entries_nil a b i j ks :
  snake_entries diff a b i j ks = Ok [] →
  Forall (λ k, ∃ x, a !! (i + k) = Some x ∧ b !! (j + k) = Some x) ks.
Proof.
  induction ks as [|k ks IH]; simpl; [constructor|].
  unfold index.
  destruct (a !! (i + k)) as [x|] eqn:Hx; simpl; [|done].
  destruct (b !! (j + k)) as [y|] eqn:Hy; simpl; [|done].
  unfold pair_entries. destruct (diff x y) as [cd|] eqn:Hd; simpl; [|done].
  destruct (snake_entries diff a b i j ks) as [es|]; simpl; [|done].
  intros [= [Hcd ->]%app_eq_nil]. constructor; [|by apply IH].
  destruct cd; [|done]. apply Hdiff in Hd as ->. by exists y.
Qed.

Lemma gap_entries_nil b i0 j0 i j :
  gap_entries b i0 j0 i j = [] → i ≤ i0 ∧ j ≤ j0.
Proof.
  unfold gap_entries.
  destruct (Nat.ltb_spec i0 i), (Nat.ltb_spec j0 j); simpl; try done.
Qed.

(** An empty script leaves no gap and no differing pair: from the corner
    on, the two lists are the same. *)
Lemma walk_snakes_nil a b sn i0 j0 :
  in_order i0 j0 (sn ++ [(length a, length b, 0)]) →
  walk_snakes diff a b i0 j0 (sn ++ [(length a, length b, 0)]) = Ok [] →
  drop i0 a = drop j0 b.
Proof.
  revert i0 j0; induction sn as [|[[i j] n] sn IH]; intros i0 j0; simpl.
  - intros (Hi & Hj & _) [= [Hgap _]%app_eq_nil].
    apply gap_entries_nil in Hgap as [? ?].
    rewrite !drop_ge by lia. done.
  - intros (Hi & Hj & Hord).
    destruct (snake_entries diff a b i j (seq 0 n)) as [ps|] eqn:Hps; simpl; [|done].
    destruct (walk_snakes diff a b (i + n) (j + n) _) as [rest|] eqn:Hrest;
      simpl; [|done].
    intros [= [Hgap [-> ->]%app_eq_nil]%app_eq_nil].
    apply gap_entries_nil in Hgap as [? ?].
    assert (i = i0) as -> by lia. assert (j = j0) as -> by lia.
    apply IH in Hrest; [|done].
    apply snake_entries_nil in Hps. rewrite list.Forall_forall in Hps.
    rewrite <-(take_drop n (drop i0 a)), <-(take_drop n (drop j0 b)).
    rewrite !drop_drop, Hrest. f_equal.
    apply list_eq. intros k. destruct (decide (k < n)) as [Hk|Hk].
    + rewrite !lookup_take_lt, !lookup_drop by done.
      destruct (Hps k) as (x & -> & ->); [|done]. apply elem_of_seq. lia.
    + rewrite !lookup_take_ge by lia. done.
Qed.

Lemma diff_cells_nil_eq a b : diff_cells diff cs a b = Ok [] → a = b.
Proof.
  unfold diff_cells.
  destruct (cs a b _ _ _) as [sn|] eqn:Hsn; simpl; [|done].
  apply (snakes_monotonic _ Hcs) in Hsn. apply monotonic_in_order in Hsn.
  unfold diff_from_snakes. rewrite for_snakes_walk.
  destruct (walk_snakes diff a b 0 0 _) as [es|] eqn:Hes; simpl; [|done].
  intros [= ->]. by apply walk_snakes_nil in Hes.
Qed.

(** A snake list that matches as many pairs as the rectangle is long on
    both sides leaves no gap. *)
Lemma matched_cons i j n sn : matched ((i, j, n) :: sn) = n + matched sn.
Proof. done. Qed.

Lemma in_order_matched (la lb : nat) sn i0 j0 :
  in_order i0 j0 (sn ++ [(la, lb, 0)]) →
  i0 + matched sn ≤ la ∧ j0 + matched sn ≤ lb.
Proof.
  revert i0 j0; induction sn as [|[[i j] n] sn IH]; intros i0 j0.
  - intros (? & ? & _). unfold matched; simpl. lia.
  - intros (? & ? & Hord). apply IH in Hord. rewrite matched_cons. lia.
Qed.

Lemma in_order_gapless (la lb : nat) sn i0 j0 :
  in_order i0 j0 (sn ++ [(la, lb, 0)]) →
  la ≤ i0 + matched sn → lb ≤ j0 + matched sn →
  gapless i0 j0 (sn ++ [(la, lb, 0)]).
Proof.
  revert i0 j0; induction sn as [|[[i j] n] sn IH]; intros i0 j0.
  - unfold matched; simpl. intros (? & ? & _) ? ?. lia.
  - rewrite matched_cons. intros (? & ? & Hord) ? ?.
    pose proof (in_order_matched _ _ _ _ _ Hord) as [? ?].
    split; [lia|]. split; [lia|]. apply IH; [done | lia..].
Qed.

Lemma snake_entries_same a i n :
  i + n ≤ length a → snake_entries diff a a i i (seq 0 n) = Ok [].
Proof.
  intros Hi.
  assert (∀ ks, Forall (λ k, k < n) ks →
            snake_entries diff a a i i ks = Ok []) as H.
  { induction ks as [|k ks IH]; intros Hks; simpl; [done|].
    apply list.Forall_cons in Hks as [Hk Hks].
    destruct (lookup_lt_is_Some_2 a (i + k)) as [x Hx]; [lia|].
    unfold index. rewrite Hx; simpl. unfold pair_entries.
    rewrite diff_refl; simpl. by rewrite IH. }
  apply H. apply list.Forall_forall. intros k Hk%elem_of_seq. lia.
Qed.

Lemma walk_snakes_gapless a sn i0 :
  Forall (snake_in_rect (length a) (length a)) sn →
  gapless i0 i0 sn → walk_snakes diff a a i0 i0 sn = Ok [].
Proof.
  intros Hrect; revert i0.
  induction Hrect as [|[[i j] n] sn [Hin Hjn] _ IH]; intros i0; simpl in *; [done|].
  intros (-> & -> & Hgap).
  rewrite snake_entries_same by done. simpl.
  rewrite IH by done. simpl.
  unfold gap_entries. by rewrite Nat.ltb_irrefl.
Qed.

Lemma well_formed_cell_reflexive x :
  well_formed_cell x = true → compare_cell_source_and_outputs x x = Ok true.
Proof.
  intros (t & s & Ht & Hs & _ & Ho)%well_formed_cell_fields.
  unfold compare_cell_source_and_outputs. rewrite Ht; simpl.
  rewrite bool_decide_eq_false_2 by (intros H; by apply H).
  rewrite Hs; simpl.
  rewrite bool_decide_eq_false_2 by (intros H; by apply H).
  case_bool_decide as Hcode; [|done].
  destruct (Ho Hcode) as [o ->]. simpl.
  by rewrite bool_decide_eq_false_2 by (intros H; by apply H).
Qed.

Lemma diagonal_chain P (a : list value) :
  Forall (λ x, P x x = Ok true) a →
  chain P a a ((λ k, (k, k)) <$> seq 0 (length a)).
Proof.
  intros Ha. split.
  - assert (∀ s n, Sorted pair_before ((λ k, (k, k)) <$> seq s n)) as H;
      [|apply H].
    intros s n; revert s; induction n as [|n IH]; intros s; simpl;
      constructor; [apply IH|].
    destruct n; simpl; constructor. split; simpl; lia.
  - apply Forall_fmap, list.Forall_forall. intros k Hk%elem_of_seq.
    destruct (lookup_lt_is_Some_2 a k) as [x Hx]; [lia|].
    exists x, x. repeat split; try done.
    rewrite list.Forall_forall in Ha. apply Ha.
    by eapply list_elem_of_lookup_2.
Qed.

Lemma diff_cells_same a :
  Forall (λ x, well_formed_cell x = true) a → diff_cells diff cs a a = Ok [].
Proof.
  intros Hwf. unfold diff_cells.
  destruct (snakes_total _ Hcs a a predicates
              (Z.of_nat (length predicates) - 1)) as [sn Hsn].
  { rewrite list.Forall_forall in Hwf.
    intros P x y HP Hx%Hwf Hy%Hwf.
    destruct (predicates_ok_on_well_formed x y Hx Hy) as (? & ? & ?).
    unfold predicates in HP.
    repeat (apply elem_of_cons in HP as [->|HP]; [done|]).
    by apply elem_of_nil in HP. }
  { simpl. lia. }
  rewrite Hsn. simpl.
  pose proof (snakes_monotonic _ Hcs _ _ _ _ _ Hsn) as Hmono.
  pose proof (monotonic_in_order _ _ _ Hmono) as Hord.
  assert (length a ≤ matched sn) as Hlen.
  { etrans; [|eapply (snakes_maximal _ Hcs _ _ _ _ _
                        compare_cell_source_and_outputs);
               [exact Hsn | done | simpl; lia | apply diagonal_chain]].
    - by rewrite length_fmap, length_seq.
    - eapply list.Forall_impl; [exact Hwf|]. apply well_formed_cell_reflexive. }
  unfold diff_from_snakes. rewrite for_snakes_walk.
  rewrite walk_snakes_gapless; [done | |].
  - apply Forall_app. split; [apply Hmono|]. repeat constructor; simpl; lia.
  - by apply in_order_gapless.
Qed.

Lemma well_formed_document_cells d :
  well_formed_document d = true →
  ∃ cells, d !! "cells" = Some (VList cells)
           ∧ Forall (λ x, well_formed_cell x = true) cells.
Proof.
  unfold well_formed_document.
  destruct (d !! "cells") as [[| | |cells|]|]; try done.
  intros H. exists cells. split; [done|].
  apply List.Forall_forall. by apply forallb_forall.
Qed.

(** C1. For well-formed documents the call returns the empty script
    exactly when the two documents are equal; in particular it returns
    the empty script when both arguments are one document. *)
Theorem diff_notebooks_empty_iff_equal (σ : store) nba nbb da db :
  σ !! nba = Some da → σ !! nbb = Some db →
  well_formed_document da = true → well_formed_document db = true →
  ((diff_notebooks diff cs nba nbb σ).1 = Ok [] ↔ da = db)
  ∧ (diff_notebooks diff cs nba nba σ).1 = Ok [].
Proof.
  intros Ha Hb (ca & Hca & Hwfa)%well_formed_document_cells
               (cb & Hcb & Hwfb)%well_formed_document_cells.
  assert (∀ d c, d !! "cells" = Some (VList c) →
            Forall (λ x, well_formed_cell x = true) c →
            (nbdiff ← diff (VDict (delete "cells" d)) (VDict (delete "cells" d));
             cdiff ← (a ← as_list (VList c); b ← as_list (VList c);
                      diff_cells diff cs a b);
             Ok (if nonempty cdiff then nbdiff ++ [PATCH (Name "cells") cdiff]
                 else nbdiff)) = Ok []) as Hsame.
  { intros d c _ Hwf. rewrite diff_refl. simpl. by rewrite diff_cells_same. }
  split.
  - rewrite (diff_notebooks_run σ nba nbb da db _ _ Ha Hb Hca Hcb). simpl.
    split.
    + destruct (diff _ _) as [nbdiff|] eqn:Hnb; simpl; [|done].
      destruct (diff_cells diff cs ca cb) as [cdiff|] eqn:Hcd; simpl; [|done].
      destruct cdiff as [|e cdiff]; simpl.
      * intros [= ->]. apply Hdiff in Hnb. apply diff_cells_nil_eq in Hcd.
        injection Hnb as Hnb. subst cb.
        rewrite <-(insert_delete_id da "cells" _ Hca),
          <-(insert_delete_id db "cells" _ Hcb). by rewrite Hnb.
      * intros [= H]. by apply app_eq_nil in H as [_ ?].
    + intros <-. assert (cb = ca) as -> by congruence. by apply Hsame.
  - rewrite (diff_notebooks_run σ nba nba da da _ _ Ha Ha Hca Hca). simpl.
    by apply Hsame.
Qed.
End notebook.

(** ** The statements on concrete notebooks *)

Lemma diff_cells_keys_ascending_witness :
  let a := [code_cell "import numpy as np" []; markdown_cell ["# Results"];
            code_cell "print(x)" [VNum 1]] in
  let b := [markdown_cell ["# Results"]; code_cell "import numpy  as np" [];
            markdown_cell ["# Results"]; code_cell "print(x)" [VNum 2]] in
  let snakes := [(1, 0, 1); (2, 3, 1)] in
  monotonic_snakes a b snakes
  ∧ ∃ di ks, diff_from_snakes reference.diff a b snakes = Ok di
             ∧ keyed di ks ∧ Sorted le ks.
Proof.
  intros a b snakes.
  assert (monotonic_snakes a b snakes) as Hmono.
  { split; repeat constructor; vm_compute; lia. }
  split; [exact Hmono|].
  destruct (diff_cells_keys_ascending reference.diff a b snakes Hmono) as [Hkeys _].
  destruct (diff_from_snakes reference.diff a b snakes) as [di|] eqn:Hdi.
  - destruct (Hkeys di eq_refl) as (ks & Hks & Hsorted).
    exists di, ks. split; [reflexivity | split; assumption].
  - vm_compute in Hdi. discriminate Hdi.
Defined.

Lemma diff_notebooks_does_not_mutate_witness :
  let σ := [nb_before; nb_after] in
  let σ' := (diff_notebooks reference.diff reference.compute_snakes_multilevel
               0 1 σ).2 in
  σ' !! 0 = Some nb_before ∧ σ' !! 1 = Some nb_after
  ∧ nb_before !! "cells" ≠ None.
Proof.
  intros σ σ'.
  destruct (diff_notebooks_does_not_mutate reference.diff
              reference.compute_snakes_multilevel σ 0 1 nb_before nb_after
              eq_refl eq_refl) as (Ha & Hb & _).
  split; [exact Ha|]. split; [exact Hb|].
  intros H. vm_compute in H. discriminate H.
Defined.

Lemma diff_notebooks_empty_iff_equal_witness :
  let σ := [nb_before; nb_after] in
  well_formed_document nb_before = true ∧ well_formed_document nb_after = true
  ∧ ((diff_notebooks reference.diff reference.compute_snakes_multilevel 0 1 σ).1
       = Ok [] ↔ nb_before = nb_after)
  ∧ (diff_notebooks reference.diff reference.compute_snakes_multilevel 0 0 σ).1
    = Ok [].
Proof.
  intros σ. split; [reflexivity|]. split; [reflexivity|].
  exact (diff_notebooks_empty_iff_equal reference.diff
           reference.compute_snakes_multilevel
           reference_facts.diff_generic_differ
           reference_facts.compute_snakes_multilevel_snake_computer
           σ 0 1 nb_before nb_after eq_refl eq_refl eq_refl eq_refl).
Defined.

(** ** The scenarios of the design document (section 8), run with the
    instances *)

Example scenario_A :
  let cells := [code_cell "a = 0" []; markdown_cell ["# Results"];
                code_cell "import numpy as np" []] in
  let cells' := [code_cell "a = 0" []; markdown_cell ["# Results"];
                 code_cell "import numpy  as np" []] in
  diff_cells reference.diff reference.compute_snakes_multilevel cells cells'
  = Ok [PATCH (Idx 2) [REPLACE (Name "source") (VStr "import numpy  as np")]].
Proof. vm_compute. reflexivity. Qed.

Example scenario_B :
  let cells := [code_cell "a = 0" []; markdown_cell ["# Results"];
                code_cell "print(a)" [VNum 0]; code_cell "a + 1" [VNum 1]] in
  diff_cells reference.diff reference.compute_snakes_multilevel
    cells (take 3 cells)
  = Ok [SEQDELETE (Idx 3) 1].
Proof. vm_compute. reflexivity. Qed.

Example scenario_C :
  let cells := [code_cell "a = 0" []; code_cell "print(a)" [VNum 0]] in
  let cells' := [code_cell "a = 0" []; markdown_cell ["# Results"];
                 code_cell "print(a)" [VNum 0]] in
  diff_cells reference.diff reference.compute_snakes_multilevel cells cells'
  = Ok [SEQINSERT (Idx 1) [markdown_cell ["# Results"]]].
Proof. vm_compute. reflexivity. Qed.

Example scenario_D :
  diff_cells reference.diff reference.compute_snakes_multilevel
    [code_cell "print(a)" [VNum 0]] [code_cell "print(a)" [VNum 1]]
  = Ok [PATCH (Idx 0) [REPLACE (Name "outputs") (VList [VNum 1])]].
Proof. vm_compute. reflexivity. Qed.

Example scenario_E :
  diff_cells reference.diff reference.compute_snakes_multilevel
    [code_cell "print(a)" []] [code_cell "import numpy as np" []]
  = Ok [SEQDELETE (Idx 0) 1; SEQINSERT (Idx 0) [code_cell "import numpy as np" []]].
Proof. vm_compute. reflexivity. Qed.

(** * Further properties of the code *)

(** ** The similarity predicates as relations *)





(** The outcome of the strictest predicate on two cells that have the
    fields it reads. *)
Lemma compare_cell_source_and_outputs_true (x y : value) :
  compare_cell_source_and_outputs x y = Ok true →
  ∃ t s, getitem x "cell_type" = Ok t ∧ getitem y "cell_type" = Ok t
    ∧ getitem x "source" = Ok s ∧ getitem y "source" = Ok s
    ∧ (t = VStr "code" →
       ∃ o, getitem x "outputs" = Ok o ∧ getitem y "outputs" = Ok o).
Proof.
  unfold compare_cell_source_and_outputs.
  destruct (getitem x "cell_type") as [xt|]; simpl; [|done].
  destruct (getitem y "cell_type") as [yt|]; simpl; [|done].
  case_bool_decide as Ht; [done|]. subst yt.
  destruct (getitem x "source") as [xs|]; simpl; [|done].
  destruct (getitem y "source") as [ys|]; simpl; [|done].
  case_bool_decide as Hs; [done|]. subst ys.
  case_bool_decide as Hcode.
  - destruct (getitem x "outputs") as [xo|]; simpl; [|done].
    destruct (getitem y "outputs") as [yo|]; simpl; [|done].
    case_bool_decide as Ho; [done|]. subst yo. intros _.
    exists xt, xs. repeat split; try done. intros _. by exists xo.
  - intros _. exists xt, xs. repeat split; done.
Qed.

Lemma compare_cell_source_and_outputs_intro (x y t s : value) :
  getitem x "cell_type" = Ok t → getitem y "cell_type" = Ok t →
  getitem x "source" = Ok s → getitem y "source" = Ok s →
  (t = VStr "code" →
   ∃ o, getitem x "outputs" = Ok o ∧ getitem y "outputs" = Ok o) →
  compare_cell_source_and_outputs x y = Ok true.
Proof.
  intros Hxt Hyt Hxs Hys Ho. unfold compare_cell_source_and_outputs.
  rewrite Hxt, Hyt; simpl.
  rewrite bool_decide_eq_false_2 by (intros H; by apply H).
  rewrite Hxs, Hys; simpl.
  rewrite bool_decide_eq_false_2 by (intros H; by apply H).
  case_bool_decide as Hcode; [|done].
  destruct (Ho Hcode) as (o & -> & ->). simpl.
  by rewrite bool_decide_eq_false_2 by (intros H; by apply H).
Qed.

(** X2. The source-and-outputs predicate is symmetric and transitive where
    it holds, and a returned [false] does not depend on the order of the
    arguments either. *)
Theorem compare_cell_source_and_outputs_equivalence (x y z : value) :
  (∀ r, compare_cell_source_and_outputs x y = Ok r →
        compare_cell_source_and_outputs y x = Ok r)
  ∧ (compare_cell_source_and_outputs x y = Ok true →
     compare_cell_source_and_outputs y z = Ok true →
     compare_cell_source_and_outputs x z = Ok true).
Proof.
  split.
  - intros [|] H.
    + apply compare_cell_source_and_outputs_true in H
        as (t & s & ? & ? & ? & ? & Ho).
      apply (compare_cell_source_and_outputs_intro y x t s); try done.
      intros Hc. destruct (Ho Hc) as (o & ? & ?). by exists o.
    + revert H. unfold compare_cell_source_and_outputs.
      destruct (getitem x "cell_type") as [xt|]; simpl; [|done].
      destruct (getitem y "cell_type") as [yt|]; simpl; [|done].
      case_bool_decide as Ht.
      { intros _. by rewrite (bool_decide_eq_true_2 (yt ≠ xt)) by congruence. }
      subst yt.
      rewrite (bool_decide_eq_false_2 (xt ≠ xt)) by (intros H; by apply H).
      destruct (getitem x "source") as [xs|]; simpl; [|done].
      destruct (getitem y "source") as [ys|]; simpl; [|done].
      case_bool_decide as Hs.
      { intros _. by rewrite (bool_decide_eq_true_2 (ys ≠ xs)) by congruence. }
      subst ys.
      rewrite (bool_decide_eq_false_2 (xs ≠ xs)) by (intros H; by apply H).
      case_bool_decide as Hcode; [|done].
      destruct (getitem x "outputs") as [xo|]; simpl; [|done].
      destruct (getitem y "outputs") as [yo|]; simpl; [|done].
      case_bool_decide as Ho; [|done].
      intros _. by rewrite (bool_decide_eq_true_2 (yo ≠ xo)) by congruence.
  - intros (t & s & ? & ? & ? & ? & Ho)%compare_cell_source_and_outputs_true
           (t' & s' & ? & ? & ? & ? & Ho')%compare_cell_source_and_outputs_true.
    assert (t' = t) as -> by congruence. assert (s' = s) as -> by congruence.
    apply (compare_cell_source_and_outputs_intro x z t s); try done.
    intros Hc. destruct (Ho Hc) as (o & ? & ?), (Ho' Hc) as (o' & ? & ?).
    exists o. split; [done | congruence].
Qed.

Lemma compare_cell_source_and_outputs_equivalence_witness :
  let x := code_cell "x = 1" [VNum 1] in
  let y := code_cell "x = 1" [VNum 2] in
  compare_cell_source_and_outputs x y = Ok false
  ∧ compare_cell_source_and_outputs y x = Ok false.
Proof.
  intros x y.
  destruct (compare_cell_source_and_outputs_equivalence x y x) as (Hsym & _).
  assert (compare_cell_source_and_outputs x y = Ok false) as Hxy
    by (vm_compute; reflexivity).
  split; [exact Hxy | exact (Hsym false Hxy)].
Defined.

(** ** The approximate predicate *)

(** X3. The approximate predicate sees a source only through its
    normalised text: two cells of the same type whose sources join to the
    same text (a list of lines and the text itself, or two ways of cutting
    the text into lines) are interchangeable on either side. *)
Theorem compare_cell_source_approximate_normalised (x x' y xs xs' : value) :
  getitem x "cell_type" = getitem x' "cell_type" →
  getitem x "source" = Ok xs → getitem x' "source" = Ok xs' →
  join_if_list xs = join_if_list xs' →
  compare_cell_source_approximate x y = compare_cell_source_approximate x' y
  ∧ compare_cell_source_approximate y x = compare_cell_source_approximate y x'.
Proof.
  intros Ht Hxs Hxs' Hjoin. unfold compare_cell_source_approximate.
  rewrite <-Ht, Hxs, Hxs'. split.
  - destruct (getitem x "cell_type") as [xt|]; simpl; [|done].
    destruct (getitem y "cell_type") as [yt|]; simpl; [|done].
    case_bool_decide; [done|].
    destruct (getitem y "source") as [ys|]; simpl; [|done].
    by rewrite Hjoin.
  - destruct (getitem y "cell_type") as [yt|]; simpl; [|done].
    destruct (getitem x "cell_type") as [xt|]; simpl; [|done].
    case_bool_decide; [done|].
    destruct (getitem y "source") as [ys|]; simpl; [|done].
    destruct (join_if_list ys) as [ys'|]; simpl; [|done].
    by rewrite Hjoin.
Qed.

Lemma compare_cell_source_approximate_normalised_witness :
  let x := markdown_cell ["# Results"; "some text"] in
  let x' := dict [("cell_type", VStr "markdown");
                  ("source", VStr ("# Results" +:+ newline +:+ "some text"))] in
  compare_cell_source_exact x x' = Ok false
  ∧ compare_cell_source_approximate x x' = Ok true
  ∧ compare_cell_source_approximate x' x = Ok true.
Proof.
  intros x x'.
  destruct (compare_cell_source_approximate_normalised x x' x _ _
              eq_refl eq_refl eq_refl eq_refl) as [H1 H2].
  split; [vm_compute; reflexivity|]. split.
  - rewrite <-H2. vm_compute. reflexivity.
  - rewrite <-H1. vm_compute. reflexivity.
Defined.

Lemma length_list_ascii_of_string (s : string) :
  length (String.list_ascii_of_string s) = String.length s.
Proof. induction s as [|c s IH]; simpl; [done | by rewrite IH]. Qed.

(** X4. Two cells that the approximate predicate accepts have the same
    normalised text, or texts of lengths [la] and [lb] with
    [9 * (la + lb) < 20 * min la lb]: a text is never matched with one
    shorter than nine elevenths of it, and an empty text only with an
    empty one. *)
Theorem compare_cell_source_approximate_lengths
    (x y xs ys : value) (a b : string) :
  getitem x "source" = Ok xs → getitem y "source" = Ok ys →
  join_if_list xs = Ok (VStr a) → join_if_list ys = Ok (VStr b) →
  compare_cell_source_approximate x y = Ok true →
  a = b
  ∨ 9 * (String.length a + String.length b)
    < 20 * (String.length a `min` String.length b).
Proof.
  intros Hxs Hys Ha Hb. unfold compare_cell_source_approximate.
  destruct (getitem x "cell_type") as [xt|]; simpl; [|done].
  destruct (getitem y "cell_type") as [yt|]; simpl; [|done].
  case_bool_decide; [done|].
  rewrite Hxs, Hys; simpl. rewrite Ha, Hb; simpl.
  case_bool_decide as Hab; [intros _; left; congruence|].
  set (la := String.list_ascii_of_string a).
  set (lb := String.list_ascii_of_string b).
  destruct (Qlt_bool (difflib.real_quick_ratio la lb) threshold) eqn:E1; [done|].
  destruct (Qlt_bool (difflib.quick_ratio la lb) threshold) eqn:E2; [done|].
  intros [= E3%Qlt_bool_iff]. right.
  assert (threshold < difflib.real_quick_ratio la lb)%Q as Hr.
  { eapply Qlt_le_trans; [exact E3|]. eapply Qle_trans;
      [apply ratio_le_quick_ratio | apply quick_ratio_le_real_quick_ratio]. }
  unfold difflib.real_quick_ratio, difflib._calculate_ratio, threshold in Hr.
  unfold la, lb in Hr. rewrite !length_list_ascii_of_string in Hr.
  destruct (String.length a + String.length b) as [|n] eqn:Hn.
  - destruct a, b; simpl in Hn; try lia. by destruct Hab.
  - unfold Qlt in Hr. cbn [Qnum Qden] in Hr. lia.
Qed.

Lemma compare_cell_source_approximate_lengths_witness :
  let x := code_cell "import numpy as np" [] in
  let y := code_cell "import numpy  as np" [] in
  compare_cell_source_approximate x y = Ok true
  ∧ 9 * (18 + 19) < 20 * (18 `min` 19).
Proof.
  intros x y.
  assert (compare_cell_source_approximate x y = Ok true) as H
    by (vm_compute; reflexivity).
  split; [exact H|].
  destruct (compare_cell_source_approximate_lengths x y _ _ _ _
              eq_refl eq_refl eq_refl eq_refl H) as [Heq|Hlt].
  - vm_compute in Heq. discriminate Heq.
  - exact Hlt.
Defined.

(** X5. The approximate predicate depends on the order of its arguments:
    difflib grows its matching blocks from the first text, and the same two
    cells can be similar one way round and not the other. *)
Theorem compare_cell_source_approximate_not_symmetric :
  ¬ (∀ x y, well_formed_cell x = true → well_formed_cell y = true →
            compare_cell_source_approximate x y
            = compare_cell_source_approximate y x).
Proof.
  intros Hsym.
  specialize (Hsym (code_cell "abbaabaaab" []) (code_cell "abbbaabbaaab" [])
                eq_refl eq_refl).
  vm_compute in Hsym. discriminate Hsym.
Qed.

(** ** truncate_filename *)

Lemma substring_0_append (s t : string) :
  String.substring 0 (String.length s) (s +:+ t) = s.
Proof. induction s as [|c s IH]; simpl; [by destruct t | by rewrite IH]. Qed.

(** X12. Truncating is idempotent: a truncated name is 20 characters at
    most, and when it is 20 its first 17 characters and the three dots are
    what truncating it again rebuilds. *)
Theorem truncate_filename_idempotent (name : string) :
  truncate_filename (truncate_filename name) = truncate_filename name.
Proof.
  destruct (Nat.ltb_spec (String.length name) 20) as [Hlt|Hge].
  - assert (truncate_filename name = name) as Hsame.
    { unfold truncate_filename. by apply Nat.ltb_lt in Hlt as ->. }
    by rewrite !Hsame.
  - set (p := String.substring 0 17 name).
    assert (truncate_filename name = p +:+ "...") as ->.
    { unfold truncate_filename. by apply Nat.ltb_ge in Hge as ->. }
    assert (String.length p = 17) as Hp.
    { unfold p. rewrite length_substring_0. lia. }
    unfold truncate_filename.
    assert ((String.length (p +:+ "...") <? 20) = false) as ->.
    { apply Nat.ltb_ge. rewrite length_append, Hp. simpl. lia. }
    change (20 - 3) with 17. rewrite <-Hp at 1.
    by rewrite substring_0_append.
Qed.

(** ** The cell diff builder: what the script accounts for *)

Section builder_accounts.
Context (diff : value → value → res script).

Lemma slice_length (b : list value) (lo hi : nat) :
  hi ≤ length b → length (slice b lo hi) = hi - lo.
Proof. intros H. unfold slice. rewrite length_take, length_drop. lia. Qed.

Lemma gap_entries_measures (b : list value) (i0 j0 i j : nat) :
  i0 ≤ i → j0 ≤ j → j ≤ length b →
  sum_list (deleted <$> gap_entries b i0 j0 i j) = i - i0
  ∧ sum_list (inserted <$> gap_entries b i0 j0 i j) = j - j0
  ∧ gap_entries b i0 j0 i j ≫= touched = seq i0 (i - i0).
Proof.
  intros Hi Hj Hb. unfold gap_entries.
  assert (∀ n, n = 0 → seq i0 n = []) as Hseq by (by intros n ->).
  destruct (Nat.ltb_spec i0 i), (Nat.ltb_spec j0 j); simpl;
    rewrite ?slice_length, ?app_nil_r by done;
    repeat split; try lia; try done; symmetry; apply Hseq; lia.
Qed.

Lemma snake_entries_measures a b i j ks es :
  snake_entries diff a b i j ks = Ok es →
  sum_list (deleted <$> es) = 0 ∧ sum_list (inserted <$> es) = 0
  ∧ es ≫= touched `sublist_of` ((λ k, i + k) <$> ks).
Proof.
  revert es; induction ks as [|k ks IH]; intros es; simpl.
  - intros [= <-]. by repeat split.
  - destruct (index a (i + k)) as [x|]; simpl; [|done].
    destruct (index b (j + k)) as [y|]; simpl; [|done].
    unfold pair_entries. destruct (diff x y) as [cd|]; simpl; [|done].
    destruct (snake_entries diff a b i j ks) as [es'|]; simpl; [|done].
    intros [= <-]. destruct (IH _ eq_refl) as (Hd & Hi & Hsub).
    destruct cd as [|e cd]; simpl.
    + repeat split; try done. by apply sublist_cons.
    + repeat split; try done. by apply sublist_skip.
Qed.

Lemma sum_list_fmap_app {A} (f : A → nat) (l k : list A) :
  sum_list (f <$> (l ++ k)) = sum_list (f <$> l) + sum_list (f <$> k).
Proof.
  induction l as [|x l IH]; [done|].
  rewrite <-app_comm_cons, !fmap_cons. cbn [sum_list sum_list_with].
  rewrite IH. lia.
Qed.

Lemma walk_snakes_accounts a b sn i0 j0 es :
  in_order i0 j0 (sn ++ [(length a, length b, 0)]) →
  Forall (snake_in_rect (length a) (length b)) sn →
  walk_snakes diff a b i0 j0 (sn ++ [(length a, length b, 0)]) = Ok es →
  i0 + sum_list (deleted <$> es) + matched sn = length a
  ∧ j0 + sum_list (inserted <$> es) + matched sn = length b.
Proof.
  intros Hord Hrect; revert i0 j0 es Hord.
  induction Hrect as [|[[i j] n] sn [Hin Hjn] _ IH]; intros i0 j0 es; simpl in *.
  - intros (Hi & Hj & _) [= <-]. rewrite !app_nil_r.
    destruct (gap_entries_measures b i0 j0 (length a) (length b))
      as (-> & -> & _); try done.
    unfold matched; simpl. lia.
  - intros (Hi & Hj & Hord).
    destruct (snake_entries diff a b i j (seq 0 n)) as [ps|] eqn:Hps; simpl; [|done].
    destruct (walk_snakes diff a b (i + n) (j + n) _) as [rest|] eqn:Hrest;
      simpl; [|done].
    intros [= <-].
    destruct (IH _ _ _ Hord Hrest) as [IHa IHb].
    destruct (snake_entries_measures _ _ _ _ _ _ Hps) as (Hpd & Hpi & _).
    destruct (gap_entries_measures b i0 j0 i j) as (Hgd & Hgi & _); try lia.
    rewrite !sum_list_fmap_app, Hpd, Hpi, Hgd, Hgi, matched_cons. lia.
Qed.

(** X7. For a monotonic snake list the script accounts for both sequences:
    the elements deleted and the pairs matched are all of [a], the elements
    inserted and the pairs matched are all of [b]. *)
Theorem diff_cells_accounts_for_both (a b : list value) (snakes : list snake)
    (di : script) :
  monotonic_snakes a b snakes →
  diff_from_snakes diff a b snakes = Ok di →
  sum_list (deleted <$> di) + matched snakes = length a
  ∧ sum_list (inserted <$> di) + matched snakes = length b.
Proof.
  intros Hmono. pose proof (monotonic_in_order _ _ _ Hmono) as Hord.
  destruct Hmono as [Hrect _].
  unfold diff_from_snakes. rewrite for_snakes_walk.
  destruct (walk_snakes diff a b 0 0 _) as [es|] eqn:Hes; simpl; [|done].
  intros [= <-]. by apply walk_snakes_accounts in Hes.
Qed.

(** Strictly ascending indices between two bounds. *)
Lemma ascending_between_app (lo mid hi : nat) (l k : list nat) :
  StronglySorted lt l → Forall (λ x, lo ≤ x < mid) l →
  StronglySorted lt k → Forall (λ x, mid ≤ x < hi) k →
  lo ≤ mid → mid ≤ hi →
  StronglySorted lt (l ++ k) ∧ Forall (λ x, lo ≤ x < hi) (l ++ k).
Proof.
  intros Hl Hbl Hk Hbk ? ?. rewrite list.Forall_forall in Hbl, Hbk. split.
  - apply StronglySorted_app_2; [|done..].
    intros x y Hx%Hbl Hy%Hbk. lia.
  - apply list.Forall_forall. intros x [Hx%Hbl|Hx%Hbk]%elem_of_app; lia.
Qed.

Lemma seq_ascending (lo n : nat) :
  StronglySorted lt (seq lo n) ∧ Forall (λ x, lo ≤ x < lo + n) (seq lo n).
Proof.
  split.
  - revert lo; induction n as [|n IH]; intros lo; simpl; constructor; [apply IH|].
    apply list.Forall_forall. intros x Hx%elem_of_seq. lia.
  - apply list.Forall_forall. intros x Hx%elem_of_seq. lia.
Qed.

Lemma walk_snakes_touched a b sn i0 j0 es :
  in_order i0 j0 (sn ++ [(length a, length b, 0)]) →
  Forall (snake_in_rect (length a) (length b)) sn →
  walk_snakes diff a b i0 j0 (sn ++ [(length a, length b, 0)]) = Ok es →
  StronglySorted lt (es ≫= touched)
  ∧ Forall (λ x, i0 ≤ x < length a) (es ≫= touched).
Proof.
  intros Hord Hrect; revert i0 j0 es Hord.
  induction Hrect as [|[[i j] n] sn [Hin Hjn] _ IH]; intros i0 j0 es; simpl in *.
  - intros (Hi & Hj & _) [= <-]. rewrite !app_nil_r.
    destruct (gap_entries_measures b i0 j0 (length a) (length b))
      as (_ & _ & ->); try done.
    destruct (seq_ascending i0 (length a - i0)) as [Hs Hb]. split; [done|].
    eapply list.Forall_impl; [exact Hb|]. simpl; lia.
  - intros (Hi & Hj & Hord).
    destruct (snake_entries diff a b i j (seq 0 n)) as [ps|] eqn:Hps; simpl; [|done].
    destruct (walk_snakes diff a b (i + n) (j + n) _) as [rest|] eqn:Hrest;
      simpl; [|done].
    intros [= <-].
    destruct (IH _ _ _ Hord Hrest) as [IHs IHb].
    destruct (snake_entries_measures _ _ _ _ _ _ Hps) as (_ & _ & Hsub).
    destruct (gap_entries_measures b i0 j0 i j) as (_ & _ & Hg); try lia.
    rewrite !bind_app, Hg.
    destruct (seq_ascending i0 (i - i0)) as [Hgs Hgb].
    assert (StronglySorted lt (ps ≫= touched)
            ∧ Forall (λ x, i ≤ x < i + n) (ps ≫= touched)) as [Hpss Hpb].
    { split.
      - eapply StronglySorted_sublist; [exact Hsub|].
        assert (∀ s, StronglySorted lt ((λ k, i + k) <$> seq s n)) as H; [|apply H].
        clear. induction n as [|n IH]; intros s; simpl; constructor; [apply IH|].
        apply list.Forall_forall. intros k (k' & -> & Hk')%list_elem_of_fmap.
        apply elem_of_seq in Hk'. lia.
      - apply list.Forall_forall. intros x Hx.
        eapply elem_of_sublist in Hx; [|exact Hsub].
        apply list_elem_of_fmap in Hx as (k & -> & Hk%elem_of_seq). lia. }
    destruct (ascending_between_app i (i + n) (length a)
                (ps ≫= touched) (rest ≫= touched)) as [Hs2 Hb2]; try done; try lia.
    destruct (ascending_between_app i0 i (length a)
                (seq i0 (i - i0)) ((ps ≫= touched) ++ (rest ≫= touched)))
      as [Hs3 Hb3]; try done; try lia.
    eapply list.Forall_impl; [exact Hgb|]. simpl; lia.
Qed.

(** X8. For a monotonic snake list no index of [a] is touched twice: the
    indices the script deletes or patches, in the order of the script, are
    strictly ascending and inside [a].  So the deleted ranges are disjoint
    and no patched element is deleted. *)
Theorem diff_cells_touches_once (a b : list value) (snakes : list snake)
    (di : script) :
  monotonic_snakes a b snakes →
  diff_from_snakes diff a b snakes = Ok di →
  StronglySorted lt (di ≫= touched)
  ∧ Forall (λ x, x < length a) (di ≫= touched).
Proof.
  intros Hmono. pose proof (monotonic_in_order _ _ _ Hmono) as Hord.
  destruct Hmono as [Hrect _].
  unfold diff_from_snakes. rewrite for_snakes_walk.
  destruct (walk_snakes diff a b 0 0 _) as [es|] eqn:Hes; simpl; [|done].
  intros [= <-]. apply walk_snakes_touched in Hes as [Hs Hb]; [|done..].
  split; [done|]. eapply list.Forall_impl; [exact Hb|]. simpl; lia.
Qed.

(** X6. Without a snake the differ is not called: the script deletes all
    of [a] and inserts all of [b], each when there is something to delete
    or insert, and it is empty for two empty lists. *)
Theorem diff_cells_without_snakes (a b : list value) :
  diff_from_snakes diff a b []
  = Ok ((if nonempty a then [SEQDELETE (Idx 0) (length a)] else [])
        ++ (if nonempty b then [SEQINSERT (Idx 0) b] else [])).
Proof.
  unfold diff_from_snakes. simpl.
  assert (slice b 0 (length b) = b) as ->.
  { unfold slice. by rewrite drop_0, Nat.sub_0_r, firstn_all. }
  rewrite Nat.sub_0_r. by destruct a, b.
Qed.

(** A snake that leaves one of the lists makes the loop fail where it
    subscripts. *)
Lemma for_k_out_of_range a b i j ks di :
  (∀ x y, x ∈ a → y ∈ b → is_ok (diff x y)) →
  Exists (λ k, length a ≤ i + k ∨ length b ≤ j + k) ks →
  for_k diff a b i j ks di = Raise IndexError.
Proof.
  intros Hd Hex; revert di.
  induction ks as [|k ks IH]; intros di; simpl.
  { by apply Exists_nil in Hex. }
  unfold index.
  destruct (a !! (i + k)) as [x|] eqn:Hx; simpl; [|done].
  destruct (b !! (j + k)) as [y|] eqn:Hy; simpl; [|done].
  unfold diff_single_cells.
  destruct (Hd x y) as [cd ->];
    [by eapply list_elem_of_lookup_2 | by eapply list_elem_of_lookup_2 |].
  simpl. apply IH.
  apply Exists_cons in Hex as [Hk|Hex]; [|done].
  apply lookup_lt_Some in Hx, Hy. lia.
Qed.

(** X9. A first snake with pairs outside the lists raises [IndexError]
    (when the differ itself does not fail on the pairs before): nothing
    of the script is returned. *)
Theorem diff_cells_snake_out_of_range (a b : list value) (i j n : nat)
    (snakes : list snake) :
  0 < n → length a < i + n ∨ length b < j + n →
  (∀ x y, x ∈ a → y ∈ b → is_ok (diff x y)) →
  diff_from_snakes diff a b ((i, j, n) :: snakes) = Raise IndexError.
Proof.
  intros Hn Hout Hd. unfold diff_from_snakes. simpl.
  rewrite for_k_out_of_range; [done | done |].
  apply Exists_exists. exists (n - 1). split; [apply elem_of_seq; lia | lia].
Qed.
End builder_accounts.

Lemma diff_cells_accounts_for_both_witness :
  let a := [code_cell "import numpy as np" []; markdown_cell ["# Results"];
            code_cell "print(x)" [VNum 1]] in
  let b := [markdown_cell ["# Results"]; code_cell "import numpy  as np" [];
            markdown_cell ["# Results"]; code_cell "print(x)" [VNum 2]] in
  let snakes := [(1, 0, 1); (2, 3, 1)] in
  monotonic_snakes a b snakes
  ∧ ∃ di, diff_from_snakes reference.diff a b snakes = Ok di
          ∧ sum_list (deleted <$> di) + 2 = 3
          ∧ sum_list (inserted <$> di) + 2 = 4.
Proof.
  intros a b snakes.
  assert (monotonic_snakes a b snakes) as Hmono.
  { split; repeat constructor; vm_compute; lia. }
  split; [exact Hmono|].
  destruct (diff_from_snakes reference.diff a b snakes) as [di|] eqn:Hdi.
  - exists di. split; [reflexivity|].
    exact (diff_cells_accounts_for_both reference.diff a b snakes di Hmono Hdi).
  - vm_compute in Hdi. discriminate Hdi.
Defined.

Lemma diff_cells_touches_once_witness :
  let a := [code_cell "import numpy as np" []; markdown_cell ["# Results"];
            code_cell "print(x)" [VNum 1]] in
  let b := [markdown_cell ["# Results"]; code_cell "import numpy  as np" [];
            markdown_cell ["# Results"]; code_cell "print(x)" [VNum 2]] in
  let snakes := [(1, 0, 1); (2, 3, 1)] in
  monotonic_snakes a b snakes
  ∧ ∃ di, diff_from_snakes reference.diff a b snakes = Ok di
          ∧ StronglySorted lt (di ≫= touched)
          ∧ Forall (λ x, x < 3) (di ≫= touched).
Proof.
  intros a b snakes.
  assert (monotonic_snakes a b snakes) as Hmono.
  { split; repeat constructor; vm_compute; lia. }
  split; [exact Hmono|].
  destruct (diff_from_snakes reference.diff a b snakes) as [di|] eqn:Hdi.
  - exists di. split; [reflexivity|].
    exact (diff_cells_touches_once reference.diff a b snakes di Hmono Hdi).
  - vm_compute in Hdi. discriminate Hdi.
Defined.

Lemma diff_cells_snake_out_of_range_witness :
  let a := [code_cell "x = 1" []] in
  diff_from_snakes reference.diff a a [(0, 0, 2)] = Raise IndexError.
Proof.
  intros a.
  apply (diff_cells_snake_out_of_range reference.diff a a 0 0 2 []).
  - lia.
  - left. vm_compute. lia.
  - intros x y Hx Hy. unfold a in Hx, Hy.
    apply list_elem_of_singleton in Hx, Hy. subst x y.
    exists []. by apply reference_facts.diff_generic_differ.
Defined.

(** ** The notebook differ: missing cells and the shape of the result *)

Section notebook_result.
Context (diff : value → value → res script).
Context (cs : list value → list value → rect → list predicate → Z
              → res (list snake)).

Lemma diff_notebooks_pop_fails (σ : store) nba nbb da db :
  σ !! nba = Some da → σ !! nbb = Some db →
  da !! "cells" = None ∨ db !! "cells" = None →
  (diff_notebooks diff cs nba nbb σ).1 = Raise (KeyError "cells").
Proof.
  intros Ha Hb Hmiss.
  unfold diff_notebooks, mbind, M_bind, dict_copy at 1. rewrite Ha.
  unfold dict_copy. rewrite (lookup_app_l_Some _ _ _ _ Hb).
  unfold dict_pop at 1.
  assert (((σ ++ [da]) ++ [db]) !! length σ = Some da) as ->.
  { rewrite lookup_app_l by (rewrite length_app; simpl; lia).
    by rewrite list_lookup_middle. }
  destruct (da !! "cells") as [ca|] eqn:Hca; [|done].
  destruct Hmiss as [|Hcb]; [done|].
  unfold dict_pop.
  assert (<[length σ:=delete "cells" da]> ((σ ++ [da]) ++ [db])
          = σ ++ [delete "cells" da; db]) as ->.
  { rewrite <-app_assoc. simpl.
    rewrite insert_app_r_alt, Nat.sub_diag by lia. done. }
  assert ((σ ++ [delete "cells" da; db]) !! length (σ ++ [da]) = Some db) as ->.
  { rewrite length_app. simpl.
    rewrite lookup_app_r by lia. by replace (length σ + 1 - length σ) with 1 by lia. }
  by rewrite Hcb.
Qed.

(** X10. A notebook without ["cells"] makes the call raise
    [KeyError("cells")] before anything is diffed, whichever of the two
    notebooks it is and whatever the differ and the snake computer are. *)
Theorem diff_notebooks_missing_cells (σ : store) nba nbb da db :
  σ !! nba = Some da → σ !! nbb = Some db →
  da !! "cells" = None ∨ db !! "cells" = None →
  (diff_notebooks diff cs nba nbb σ).1 = Raise (KeyError "cells").
Proof.
  intros Ha Hb [Hmiss|Hmiss].
  - apply (diff_notebooks_pop_fails σ nba nbb da db Ha Hb). by left.
  - apply (diff_notebooks_pop_fails σ nba nbb da db Ha Hb). by right.
Qed.

(** X11. The script returned depends on the two mappings only, not on
    where they are stored or on whether they are one object: it is the
    generic diff of the two mappings without their ["cells"], followed by
    one [PATCH] keyed ["cells"] that carries the cell diff when that is not
    empty; an exception of the generic differ comes before one of the cell
    diff. *)
Theorem diff_notebooks_script (σ : store) nba nbb da db ca cb :
  σ !! nba = Some da → σ !! nbb = Some db →
  da !! "cells" = Some (VList ca) → db !! "cells" = Some (VList cb) →
  (diff_notebooks diff cs nba nbb σ).1
  = match diff (VDict (delete "cells" da)) (VDict (delete "cells" db)) with
    | Ok nbdiff =>
        match diff_cells diff cs ca cb with
        | Ok [] => Ok nbdiff
        | Ok cdiff => Ok (nbdiff ++ [PATCH (Name "cells") cdiff])
        | Raise e => Raise e
        end
    | Raise e => Raise e
    end.
Proof.
  intros Ha Hb Hca Hcb.
  rewrite (diff_notebooks_run diff cs σ nba nbb da db _ _ Ha Hb Hca Hcb). simpl.
  destruct (diff _ _) as [nbdiff|]; simpl; [|done].
  by destruct (diff_cells diff cs ca cb) as [[|e cdiff]|].
Qed.
End notebook_result.

Lemma diff_notebooks_missing_cells_witness :
  let σ := [nb_before; delete "cells" nb_after] in
  (diff_notebooks reference.diff reference.compute_snakes_multilevel 0 1 σ).1
  = Raise (KeyError "cells").
Proof.
  intros σ.
  apply (diff_notebooks_missing_cells reference.diff
           reference.compute_snakes_multilevel σ 0 1
           nb_before (delete "cells" nb_after) eq_refl eq_refl).
  right. apply lookup_delete_eq.
Defined.

Lemma diff_notebooks_script_witness :
  let σ := [nb_before; nb_before] in
  (diff_notebooks reference.diff reference.compute_snakes_multilevel 1 0 σ).1
  = Ok [].
Proof.
  intros σ.
  rewrite (diff_notebooks_script reference.diff
             reference.compute_snakes_multilevel σ 1 0 nb_before nb_before
             _ _ eq_refl eq_refl eq_refl eq_refl).
  vm_compute. reflexivity.
Defined.

(** ** The web server *)

Section server_facts.
Context {response : Type} (lib : library response).
Context (diff : value → value → res script).
Context (cs : list value → list value → rect → list predicate → Z
              → res (list snake)).

(** X13. Every HTTP error of [get_notebook_argument] has status 400 and a
    message of at most 38 characters, however long the file name in the
    request is: the fixed text for an argument that is not a text, or the
    18 characters of the invalid-notebook text followed by the truncated
    name. *)
Theorem get_notebook_argument_http_errors
    (params : gmap string value) (body argname : string)
    (status : nat) (message : string) :
  get_notebook_argument lib params body argname
  = Failed (HTTPError status message) →
  status = 400 ∧ String.length message ≤ 38
  ∧ (message = "Expecting a filename."
     ∨ ∃ name, message = "Invalid notebook: " +:+ truncate_filename name
               ∧ String.length (truncate_filename name) ≤ 20).
Proof.
  unfold get_notebook_argument.
  destruct (json_loads lib body) as [b|]; simpl; [|done].
  destruct (getitem b argname) as [arg|]; simpl; [|done].
  assert (∀ name, String.length (truncate_filename name) ≤ 20) as Hlen.
  { intros name. unfold truncate_filename.
    destruct (Nat.ltb_spec (String.length name) 20); [lia|].
    rewrite length_append, length_substring_0.
    change (String.length "...") with 3. lia. }
  destruct arg as [| |name| |];
    try (intros [= <- <-]; split; [done|]; split; [simpl; lia | by left]).
  destruct (params !! "cwd") as [cwd|]; simpl; [|done].
  destruct (path_join lib cwd (VStr name)) as [path|f] eqn:Hpath; simpl.
  2: { unfold path_join in Hpath. destruct cwd; by simplify_eq. }
  assert (∀ src,
    match nbformat_read lib src with
    | Some nb => Done nb
    | None => Failed (HTTPError 400
                ("Invalid notebook: " +:+ truncate_filename name))
    end = Failed (HTTPError status message) →
    status = 400 ∧ String.length message ≤ 38
    ∧ (message = "Expecting a filename."
       ∨ ∃ name, message = "Invalid notebook: " +:+ truncate_filename name
                 ∧ String.length (truncate_filename name) ≤ 20)) as Hread.
  { intros src. destruct (nbformat_read lib src); [done|].
    intros [= <- <-]. split; [done|]. split.
    - rewrite length_append. specialize (Hlen name).
      change (String.length "Invalid notebook: ") with 18. lia.
    - right. by exists name. }
  destruct (os_path_exists lib path); simpl; [apply Hread|].
  destruct (requests_get lib name) as [r|]; simpl; [apply Hread | done].
Qed.

Lemma diff_notebooks_first_kept (base remote : gmap string value) :
  (diff_notebooks diff cs 0 1 [base; remote]).2 !! 0 = Some base.
Proof.
  destruct (diff_notebooks_frame diff cs [base; remote] 0 1) as [new ->]. done.
Qed.

(** X14. When both notebooks are read, [ApiDiffHandler.post] has two
    outcomes only: the data with the base notebook exactly as it was read
    and the script of [diff_notebooks], or HTTP error 400 with the fixed
    text, for whatever exception the diff raised.  A notebook without
    ["cells"] is one such case. *)
Theorem ApiDiffHandler_post_outcomes
    (params : gmap string value) (body : string)
    (base remote : gmap string value) :
  get_notebook_argument lib params body "base" = Done base →
  get_notebook_argument lib params body "remote" = Done remote →
  ApiDiffHandler_post lib diff cs params body
  = match (diff_notebooks diff cs 0 1 [base; remote]).1 with
    | Ok thediff => Done {| data_base := base; data_diff := thediff |}
    | Raise _ => Failed (HTTPError 400 "Error while diffing documents.")
    end
  ∧ (base !! "cells" = None ∨ remote !! "cells" = None →
     ApiDiffHandler_post lib diff cs params body
     = Failed (HTTPError 400 "Error while diffing documents.")).
Proof.
  intros Hbase Hremote.
  assert (ApiDiffHandler_post lib diff cs params body
    = match (diff_notebooks diff cs 0 1 [base; remote]).1 with
      | Ok thediff => Done {| data_base := base; data_diff := thediff |}
      | Raise _ => Failed (HTTPError 400 "Error while diffing documents.")
      end) as Hpost.
  { unfold ApiDiffHandler_post. rewrite Hbase, Hremote. simpl.
    pose proof (diff_notebooks_first_kept base remote) as Hkept.
    destruct (diff_notebooks diff cs 0 1 [base; remote]) as [[d|e] σ']; simpl in *;
      [by rewrite Hkept | done]. }
  split; [exact Hpost|]. intros Hmiss. rewrite Hpost.
  by rewrite (diff_notebooks_pop_fails diff cs [base; remote] 0 1 base remote).
Qed.

(** X15. [ApiMergeStoreHandler.post] changes no file but the one at
    [cwd]/[outputfilename], both taken from the parameters the server was
    started with and neither from the request; and with no output file
    name (absent, [None] or empty) it answers 400 and changes nothing. *)
Theorem ApiMergeStoreHandler_post_confined
    (params : gmap string value) (body : string) (w : world) :
  (∀ p, files (ApiMergeStoreHandler_post lib params body w).2 !! p
        ≠ files w !! p →
     ∃ cwd fn, params !! "cwd" = Some (VStr cwd)
       ∧ params !! "outputfilename" = Some (VStr fn) ∧ fn ≠ ""
       ∧ p = os_path_join lib cwd fn)
  ∧ (truthy (default VNone (params !! "outputfilename")) = false →
     ApiMergeStoreHandler_post lib params body w
     = (Failed (HTTPError 400 "Server does not accept storing merge result."), w)).
Proof.
  unfold ApiMergeStoreHandler_post.
  set (fn := default VNone (params !! "outputfilename")).
  destruct (truthy fn) eqn:Hfn; simpl; [|by split].
  split; [|done]. intros p.
  destruct (params !! "cwd") as [cwd|] eqn:Hcwd; simpl; [|done].
  destruct (path_join lib cwd fn) as [path|] eqn:Hpath; simpl; [|done].
  assert (∃ c f, params !! "cwd" = Some (VStr c)
            ∧ params !! "outputfilename" = Some (VStr f) ∧ f ≠ ""
            ∧ path = os_path_join lib c f) as (c & f & Hc & Hf & Hne & ->).
  { unfold path_join in Hpath. destruct cwd as [| |c| |]; try done.
    unfold fn in *. destruct (params !! "outputfilename") as [[| |f| |]|];
      simpl in *; try done.
    injection Hpath as <-. exists c, f. repeat split; try done.
    intros ->. done. }
  rewrite Hcwd in Hc. injection Hc as ->.
  assert (∀ text, <[os_path_join lib c f := text]> (files w) !! p ≠ files w !! p →
            p = os_path_join lib c f) as Hwrite.
  { intros text. destruct (decide (os_path_join lib c f = p)) as [<-|Hp];
      [done|]. by rewrite lookup_insert_ne. }
  destruct (json_loads lib body) as [b|]; simpl; [|done].
  destruct (getitem b "merged") as [merged|]; simpl; [|done].
  destruct (nbformat_from_dict lib merged) as [nb|]; simpl; [|done].
  destruct (io_open lib (os_path_join lib c f)); simpl; [|done].
  destruct (nbformat_writes lib nb) as [text|]; simpl;
    intros Hp%(Hwrite _); by exists c, f.
Qed.
End server_facts.

Lemma get_notebook_argument_http_errors_witness :
  let params := {["cwd" := VStr "/work"]} : gmap string value in
  let message := "Invalid notebook: a-broken-notebook..." in
  get_notebook_argument demo_library params "broken" "base"
  = Failed (HTTPError 400 message)
  ∧ String.length message ≤ 38.
Proof.
  intros params message.
  assert (get_notebook_argument demo_library params "broken" "base"
          = Failed (HTTPError 400 message)) as H
    by (vm_compute; reflexivity).
  split; [exact H|].
  destruct (get_notebook_argument_http_errors demo_library params
              "broken" "base" 400 message H) as (_ & Hl & _).
  exact Hl.
Defined.

Lemma ApiDiffHandler_post_outcomes_witness :
  let params := {["cwd" := VStr "/work"]} : gmap string value in
  ApiDiffHandler_post demo_library reference.diff
    reference.compute_snakes_multilevel params "diff"
  = Done {| data_base := nb_before; data_diff := [] |}.
Proof.
  intros params.
  destruct (ApiDiffHandler_post_outcomes demo_library reference.diff
              reference.compute_snakes_multilevel params "diff"
              nb_before nb_before) as [-> _].
  - vm_compute. reflexivity.
  - vm_compute. reflexivity.
  - assert ((diff_notebooks reference.diff reference.compute_snakes_multilevel
               0 1 [nb_before; nb_before]).1 = Ok []) as ->
      by (vm_compute; reflexivity).
    reflexivity.
Defined.

Lemma ApiMergeStoreHandler_post_confined_witness :
  let params := {["cwd" := VStr "/work"]} : gmap string value in
  let w := {| files := {["/work/before.ipynb" := "old"]}; stdout := [] |} in
  truthy (default VNone (params !! "outputfilename")) = false
  ∧ ApiMergeStoreHandler_post demo_library params "store" w
    = (Failed (HTTPError 400 "Server does not accept storing merge result."), w).
Proof.
  intros params w.
  assert (truthy (default VNone (params !! "outputfilename")) = false) as H
    by (vm_compute; reflexivity).
  split; [exact H|].
  destruct (ApiMergeStoreHandler_post_confined demo_library params "store" w)
    as [_ Hno].
  exact (Hno H).
Defined.
